(** * Claims validation of the JWT/OIDC auth plugin (claims.go)

    A shallow embedding of [getClaim], [extractMetadata], [validateAudience],
    [validateBoundClaims] and [validateGroups] from claims.go, of
    [googleGroupsPerUser], and of the redirect allow-list exercised by
    [TestOIDC_ValidRedirect], followed by the properties established about
    them. *)

From Stdlib Require Import Floats Ascii String.
From stdpp Require Import base option list strings gmap fin_maps.

Open Scope string_scope.
Open Scope list_scope.
Set Warnings "-register-all".

(** ** Go values held in an [interface{}]

    The dynamic types that reach this code: a claim set decoded by
    encoding/json holds nil, bool, float64, string, []interface{} and
    map[string]interface{}; a role's bound claims, decoded with UseNumber,
    hold json.Number where the token holds float64 (see the comment in
    [getClaim]). *)
Inductive value : Type :=
| VNil
| VBool (b : bool)
| VFloat64 (f : float)
| VNumber (n : string)
| VString (s : string)
| VSlice (l : list value)
| VMap (m : gmap string value).

(** [v == nil] for an interface value. *)
Definition isNil (v : value) : bool :=
  match v with VNil => true | _ => false end.

(** A run-time panic of the Go program. *)
Inductive panic : Type :=
| UncomparableType (ty : string)   (* runtime error: comparing uncomparable type T *)
| NilDereference.                  (* invalid memory address or nil pointer dereference *)

Inductive outcome (A : Type) : Type :=
| Returns (a : A)
| Panics (p : panic).
Arguments Returns {A} a.
Arguments Panics {A} p.

(** [x == y] on two interface values: false when the dynamic types differ,
    the comparison of the values when the type is comparable, and a run-time
    panic when both hold the same uncomparable type (slice or map). *)
Definition ifaceEq (x y : value) : outcome bool :=
  match x, y with
  | VNil, VNil => Returns true
  | VBool a, VBool b => Returns (bool_decide (a = b))
  | VFloat64 a, VFloat64 b => Returns (PrimFloat.eqb a b)
  | VNumber a, VNumber b => Returns (bool_decide (a = b))
  | VString a, VString b => Returns (bool_decide (a = b))
  | VSlice _, VSlice _ => Panics (UncomparableType "[]interface {}")
  | VMap _, VMap _ => Panics (UncomparableType "map[string]interface {}")
  | _, _ => Returns false
  end.

(** The values [==] compares without a panic. *)
Definition comparable (v : value) : Prop :=
  match v with
  | VSlice _ | VMap _ => False
  | _ => True
  end.

(** ** The order of [range] over a map

    Go leaves the order in which [range] visits the entries of a map
    unspecified. The development is parametric in it: any enumeration of the
    entries, each exactly once. *)
Class MapRange : Type := {
  range : ∀ {V : Type}, gmap string V → list (string * V);
  range_perm : ∀ (V : Type) (m : gmap string V), range m ≡ₚ map_to_list m
}.

Definition ascendingRange : MapRange :=
  {| range := λ V, map_to_list; range_perm := λ V m, reflexivity _ |}.

Definition descendingRange : MapRange :=
  {| range := λ V m, reverse (map_to_list m);
     range_perm := λ V m, reverse_Permutation _ |}.

(** ** strings helpers *)

(** strings.HasPrefix *)
Definition HasPrefix (s prefix : string) : bool := String.prefix prefix s.

(** strings.Replace(s, old, new, -1) for a two-byte [old = c1 c2] and a
    one-byte [new]: the matches are replaced from left to right and do not
    overlap. *)
Fixpoint Replace2 (c1 c2 new : ascii) (s : string) : string :=
  match s with
  | EmptyString => EmptyString
  | String c tl =>
      match tl with
      | EmptyString => String c EmptyString
      | String d rest =>
          if (Ascii.eqb c c1 && Ascii.eqb d c2)%bool
          then String new (Replace2 c1 c2 new rest)
          else String c (Replace2 c1 c2 new tl)
      end
  end.

(** ** github.com/mitchellh/pointerstructure, on decoded JSON *)
Module pointerstructure.

Inductive error : Type :=
| ErrFirstChar (input : string)
    (* parse Go pointer %q: first char must be '/' *)
| ErrInvalidKind (i : nat)
    (* %s: at part %d, invalid value kind: %s *)
| ErrNoKey (i : nat) (key : string)
    (* %s at part %d: couldn't find key %#v *)
| ErrCoerce (i : nat) (part : string)
    (* %s at part %d: couldn't convert value %#v to type int *)
| ErrOutOfRange (i : nat) (idx : Z) (len : nat).
    (* %s at part %d: index %d is out of range (length = %d) *)

(** The parts between the slashes of [input], the one after the last slash
    included: the loop of [Parse] and its "Add last part". *)
Fixpoint splitParts (input : string) : list string :=
  match input with
  | EmptyString => [EmptyString]
  | String c rest =>
      if Ascii.eqb c "/" then EmptyString :: splitParts rest
      else match splitParts rest with
           | p :: ps => String c p :: ps
           | [] => [String c EmptyString]
           end
  end.

(** "Replace ~1 followed by ~0 as specified by the RFC". *)
Definition unescape (p : string) : string :=
  Replace2 "~" "0" "~" (Replace2 "~" "1" "/" p).

(** [Parse]: the empty pointer has no part; any other must start with a
    slash, which is dropped before the split. *)
Definition Parse (input : string) : list string + error :=
  match input with
  | EmptyString => inl []
  | String c rest =>
      if Ascii.eqb c "/" then inl (unescape <$> splitParts rest)
      else inr (ErrFirstChar input)
  end.

Section Get.
(** [coerce] of a part to int goes through the weak decoding of mapstructure
    (strconv.ParseInt); nothing here depends on which strings it accepts, so
    it is a parameter. *)
Variable coerceInt : string → option Z.

(** The loop of [Pointer.Get]: [getMap] on a map, [getSlice] on a slice,
    "invalid value kind" on anything else (nil included). [i] counts the
    parts already walked. *)
Fixpoint getParts (i : nat) (parts : list string) (currentVal : value)
  : value + error :=
  match parts with
  | [] => inl currentVal
  | part :: rest =>
      match currentVal with
      | VMap m =>
          match m !! part with
          | Some v => getParts (S i) rest v
          | None => inr (ErrNoKey i part)
          end
      | VSlice l =>
          match coerceInt part with
          | None => inr (ErrCoerce i part)
          | Some idx =>
              if bool_decide (idx < 0 ∨ Z.of_nat (length l) ≤ idx)%Z
              then inr (ErrOutOfRange i idx (length l))
              else match l !! Z.to_nat idx with
                   | Some v => getParts (S i) rest v
                   | None => inr (ErrOutOfRange i idx (length l))
                   end
          end
      | _ => inr (ErrInvalidKind i)
      end
  end.

(** [Get]: [Parse], then the walk. *)
Definition Get (v : value) (pointer : string) : value + error :=
  match Parse pointer with
  | inr err => inr err
  | inl parts => getParts 0 parts v
  end.
End Get.

End pointerstructure.

(** A decimal reading of an index, to run the model on concrete pointers. *)
Definition digit (c : ascii) : option Z :=
  let n := Ascii.nat_of_ascii c in
  if bool_decide (48 ≤ n ≤ 57)%nat then Some (Z.of_nat n - 48)%Z else None.

Fixpoint decimalFrom (acc : Z) (s : string) : option Z :=
  match s with
  | EmptyString => Some acc
  | String c rest =>
      match digit c with
      | Some d => decimalFrom (10 * acc + d)%Z rest
      | None => None
      end
  end.

Definition decimalIndex (s : string) : option Z :=
  match s with
  | EmptyString => None
  | _ => decimalFrom 0 s
  end.

(** ** The part of the Go heap that claims.go is handed

    [getClaim], [extractMetadata] and [validateBoundClaims] receive two
    references: the claim set [allClaims], a Go map that a callee could
    write to, and the logger. Both live in the [world] that every call
    threads through; a panic leaves the world as it was at that point. *)
Inductive logEntry : Type :=
| WarnUnableToLocate (claim : string) (err : pointerstructure.error).
    (* logger.Warn: unable to locate %s in claims: %s *)

Record world : Type := World {
  allClaimsOf : gmap string value;
  logged : list logEntry
}.

Definition M (A : Type) : Type := world → outcome A * world.

Definition ret {A : Type} (a : A) : M A := λ w, (Returns a, w).

Definition bind {A B : Type} (m : M A) (k : A → M B) : M B :=
  λ w, match m w with
       | (Returns a, w') => k a w'
       | (Panics p, w') => (Panics p, w')
       end.

Notation "x <- m ;; k" := (bind m (λ x, k))
  (at level 100, m at next level, right associativity).

Definition liftOutcome {A : Type} (o : outcome A) : M A := λ w, (o, w).

Definition readClaims : M (gmap string value) :=
  λ w, (Returns (allClaimsOf w), w).

Definition loggerWarn (e : logEntry) : M unit :=
  λ w, (Returns tt, World (allClaimsOf w) (logged w ++ [e])%list).

(** ** claims.go *)

Inductive error : Type :=
| ErrConvert (source : string)
    (* error converting claim '%s' to string *)
| ErrUnexpectedAudience
    (* audience claim found in JWT but no audiences bound to the role *)
| ErrAudienceMismatch
    (* aud claim does not match any bound audience *)
| ErrClaimMissing (claim : string)
    (* claim %q is missing *)
| ErrClaimMismatch (claim : string)
    (* claim %q does not match associated bound claim *)
| ErrMissingGroups (groupsMissing : list string).
    (* missing group membership for %s, the names joined with ", " *)

(** logical.Alias, of which only the name is read. *)
Record Alias : Type := { Name : string }.

(** strutil.StrListContains *)
Fixpoint StrListContains (haystack : list string) (needle : string) : bool :=
  match haystack with
  | [] => false
  | item :: rest =>
      if bool_decide (item = needle) then true else StrListContains rest needle
  end.

Section Claims.
Variable coerceInt : string → option Z.
Context `{MapRange}.

(** [getClaim]: a claim string that starts with "/" is read as a JSON
    pointer into the claims, any other is the key of a top-level claim. *)
Definition getClaim (claim : string) : M value :=
  allClaims <- readClaims ;;
  if negb (HasPrefix claim "/") then
    ret (default VNil (allClaims !! claim))
  else
    match pointerstructure.Get coerceInt (VMap allClaims) claim with
    | inr err => _ <- loggerWarn (WarnUnableToLocate claim err) ;; ret VNil
    | inl val => ret val
    end.

(** The body of [for source, target := range claimMappings], over the
    entries still to visit; [metadata] is the map built so far. The result
    is the Go pair: the map (nil on error) and the error. *)
Fixpoint extractMetadataLoop (entries : list (string * string))
    (metadata : gmap string string)
  : M (option (gmap string string) * option error) :=
  match entries with
  | [] => ret (Some metadata, None)
  | (source, target) :: rest =>
      value <- getClaim source ;;
      match value with
      | VNil => extractMetadataLoop rest metadata
      | VString strValue =>
          extractMetadataLoop rest (<[target := strValue]> metadata)
      | _ => ret (None, Some (ErrConvert source))
      end
  end.

(** [extractMetadata] builds a metadata map from the claims and the claim
    mappings; the referenced claims must be strings. *)
Definition extractMetadata (claimMappings : gmap string string)
  : M (option (gmap string string) * option error) :=
  extractMetadataLoop (range claimMappings) ∅.

(** The loop [for _, v := range boundAudiences]. *)
Fixpoint anyBoundAudience (boundAudiences audClaim : list string) : bool :=
  match boundAudiences with
  | [] => false
  | v :: rest =>
      if StrListContains audClaim v then true
      else anyBoundAudience rest audClaim
  end.

(** [validateAudience] checks whether any of the audiences in [audClaim]
    is one of [boundAudiences]; with [strict] and no bound audience, any
    audience in the claim is an error. *)
Definition validateAudience (boundAudiences audClaim : list string)
    (strict : bool) : option error :=
  if (strict && bool_decide (length boundAudiences = 0)
             && bool_decide (0 < length audClaim))%bool
  then Some ErrUnexpectedAudience
  else if bool_decide (0 < length boundAudiences) then
    if anyBoundAudience boundAudiences audClaim then None
    else Some ErrAudienceMismatch
  else None.

(** The body of [for claim, expValue := range boundClaims]. *)
Fixpoint validateBoundClaimsLoop (entries : list (string * value))
  : M (option error) :=
  match entries with
  | [] => ret None
  | (claim, expValue) :: rest =>
      actValue <- getClaim claim ;;
      if isNil actValue then ret (Some (ErrClaimMissing claim))
      else
        same <- liftOutcome (ifaceEq expValue actValue) ;;
        if negb same then ret (Some (ErrClaimMismatch claim))
        else validateBoundClaimsLoop rest
  end.

(** [validateBoundClaims] checks that all the claim:value requirements of
    [boundClaims] are met in the claims. *)
Definition validateBoundClaims (boundClaims : gmap string value)
  : M (option error) :=
  validateBoundClaimsLoop (range boundClaims).

(** The three loops of [validateGroups]. *)
Definition setGroups (boundGroups : list string) : gmap string bool :=
  foldl (λ groupFound group, <[group := false]> groupFound) ∅ boundGroups.

Definition markAliases (groupFound : gmap string bool)
    (groupAliases : list Alias) : gmap string bool :=
  foldl (λ groupFound groupAlias,
           match groupFound !! Name groupAlias with
           | Some _ => <[Name groupAlias := true]> groupFound
           | None => groupFound
           end)
        groupFound groupAliases.

Definition collectMissing (entries : list (string * bool)) : list string :=
  foldl (λ (groupsMissing : list string) '(key, value),
           if negb value then (groupsMissing ++ [key])%list else groupsMissing)
        [] entries.

(** [validateGroups] checks whether all of [boundGroups] are among the
    group aliases. The aliases are the non-nil pointers the login path
    builds, one per group name. *)
Definition validateGroups (boundGroups : list string)
    (groupAliases : list Alias) : option error :=
  if bool_decide (length boundGroups = 0) then None
  else
    let groupFound := markAliases (setGroups boundGroups) groupAliases in
    let groupsMissing := collectMissing (range groupFound) in
    if bool_decide (0 < length groupsMissing)
    then Some (ErrMissingGroups groupsMissing)
    else None.

End Claims.

(** The value [getClaim] hands back for [claim] on the claim set
    [allClaims] (read off a run from an empty log). *)
Definition claimOf (coerceInt : string → option Z)
    (allClaims : gmap string value) (claim : string) : value :=
  match (getClaim coerceInt claim (World allClaims [])).1 with
  | Returns v => v
  | Panics _ => VNil
  end.

(** ** The directory lookup: [googleGroupsPerUser] *)
Module GoogleGroups.

(** jwtConfig, of which the two directory settings are read. *)
Record jwtConfig : Type := {
  GoogleDirectoryServiceAccountKey : string;
  GoogleDirectoryImpersonateUser : string
}.

Inductive error : Type :=
| ErrMissingConfig                       (* missing config *)
| ErrCredentials (detail : string)       (* from google.JWTConfigFromJSON *)
| ErrCreateService (detail : string)     (* Unable to create directory service %v *)
| ErrRequest (detail : string).          (* from query.Do *)

(** A request sent to the directory service by [query.Do]. *)
Record request : Type := Request {
  reqSubject : string;
  reqUserKey : string;
  reqPageToken : string
}.

Section Directory.
(** admin.Group is opaque to this code. *)
Variable Group : Type.

(** One page of the answer of the directory: resp.Groups and
    resp.NextPageToken. *)
Record page : Type := Page {
  Groups : list Group;
  NextPageToken : string
}.

(** The collaborators: the parsing of the service-account key, the
    construction of the client, and the remote directory itself. *)
Variable JWTConfigFromJSON : string → option string.
Variable adminNew : string → option string.
Variable directoryDo : request → page + string.

(** The service handle: the subject the client impersonates. *)
Definition googleDirectoryService (config : option jwtConfig)
  : option string * option error :=
  match config with
  | None => (None, Some ErrMissingConfig)
  | Some config =>
      match JWTConfigFromJSON (GoogleDirectoryServiceAccountKey config) with
      | Some detail => (None, Some (ErrCredentials detail))
      | None =>
          let subject := GoogleDirectoryImpersonateUser config in
          match adminNew subject with
          | Some detail => (None, Some (ErrCreateService detail))
          | None => (Some subject, None)
          end
      end
  end.

(** The paging loop [for { resp, err := query.Do() ... }]; the directory
    decides how many pages there are, so the loop is run on [fuel]. The
    second component is the list of requests sent so far. *)
Fixpoint pages (fuel : nat) (subject userKey pageToken : string)
    (groups : list Group) (sent : list request)
  : option ((list Group * option error) * list request) :=
  match fuel with
  | O => None
  | S fuel =>
      let req := Request subject userKey pageToken in
      let sent := (sent ++ [req])%list in
      match directoryDo req with
      | inr detail => Some (([], Some (ErrRequest detail)), sent)
      | inl resp =>
          let groups := (groups ++ Groups resp)%list in
          if bool_decide (NextPageToken resp = "") then Some ((groups, None), sent)
          else pages fuel subject userKey (NextPageToken resp) groups sent
      end
  end.

(** [config] is a pointer: reading a field through nil panics. [None] is
    the loop still running when the fuel is spent. *)
Definition googleGroupsPerUser (fuel : nat) (config : option jwtConfig)
    (userKey : string) (sent : list request)
  : option (outcome (list Group * option error) * list request) :=
  match config with
  | None => Some (Panics NilDereference, sent)
  | Some cfg =>
      if (bool_decide (String.length (GoogleDirectoryImpersonateUser cfg) = 0)
          || bool_decide (String.length (GoogleDirectoryServiceAccountKey cfg) = 0))%bool
      then Some (Returns ([], None), sent)
      else
        match googleDirectoryService config with
        | (_, Some err) => Some (Returns ([], Some err), sent)
        | (None, None) => Some (Panics NilDereference, sent)
        | (Some svc, None) =>
            match pages fuel svc userKey "" [] sent with
            | Some (r, sent') => Some (Returns r, sent')
            | None => None
            end
        end
  end.

End Directory.
End GoogleGroups.

(** ** The redirect allow-list: [validRedirect]

    [validRedirect] itself (path_oidc.go) is not among the sources; its
    table of expectations, in [TestOIDC_ValidRedirect], is. The allow-list
    of the specification is modelled from the specification;
    [validRedirect] itself enters the statements as any function on which
    the test passes. *)
Module Redirect.

(** A URI read into the components the allow-list compares. *)
Record URI : Type := {
  Scheme : string;
  Hostname : string;
  Port : string;
  Path : string;
  RawQuery : string
}.

(** [s] up to the first [sep], and what follows it (None when [sep] does
    not occur). *)
Fixpoint cut (sep : ascii) (s : string) : string * option string :=
  match s with
  | EmptyString => (EmptyString, None)
  | String c rest =>
      if Ascii.eqb c sep then (EmptyString, Some rest)
      else let '(before, after) := cut sep rest in (String c before, after)
  end.

(** What follows the last [sep] of [s] (None when [sep] does not occur). *)
Fixpoint afterLast (sep : ascii) (s : string) : option string :=
  match s with
  | EmptyString => None
  | String c rest =>
      match afterLast sep rest with
      | Some tail => Some tail
      | None => if Ascii.eqb c sep then Some rest else None
      end
  end.

Definition lowerAscii (c : ascii) : ascii :=
  let n := Ascii.nat_of_ascii c in
  if bool_decide (65 ≤ n ≤ 90)%nat then Ascii.ascii_of_nat (n + 32) else c.

(** strings.ToLower on ASCII *)
Fixpoint ToLower (s : string) : string :=
  match s with
  | EmptyString => EmptyString
  | String c rest => String (lowerAscii c) (ToLower rest)
  end.

(** strings.EqualFold on ASCII *)
Definition EqualFold (s t : string) : bool :=
  bool_decide (ToLower s = ToLower t).

(** host[:port], with an IPv6 literal in brackets. *)
Definition splitHostPort (hostport : string) : string * string :=
  match hostport with
  | String "[" rest =>
      let '(host, after) := cut "]" rest in
      match after with
      | Some (String ":" port) => (host, port)
      | _ => (host, EmptyString)
      end
  | _ =>
      let '(host, after) := cut ":" hostport in
      (host, default EmptyString after)
  end.

(** Modelled from the spec: the URI type of §4.6 (scheme, host, port, path,
    raw query) is produced in the repository by an URL parser that is not
    among the sources. This reads the generic syntax
    [scheme://[userinfo@]host[:port][/path][?query][#fragment]]: the
    fragment is dropped, the user information is what precedes the last "@"
    of the authority, and a string without [scheme://] is a bare path. *)
Definition parseURI (s : string) : URI :=
  let '(s, _) := cut "#" s in
  let '(s, query) := cut "?" s in
  let query := default EmptyString query in
  match cut ":" s with
  | (scheme, Some (String "/" (String "/" rest))) =>
      let '(authority, path) := cut "/" rest in
      let hostport := default authority (afterLast "@" authority) in
      let '(host, port) := splitHostPort hostport in
      {| Scheme := scheme; Hostname := host; Port := port;
         Path := match path with Some p => String "/" p | None => EmptyString end;
         RawQuery := query |}
  | _ =>
      {| Scheme := EmptyString; Hostname := EmptyString; Port := EmptyString;
         Path := s; RawQuery := query |}
  end.

(** Modelled from the spec: the match of §4.6, word for word: scheme equal
    (case-insensitive), host equal (case-insensitive), port equal, path
    equal exactly, query string equal exactly as a raw string. *)
Definition structuralMatch (candidate entry : URI) : bool :=
  (EqualFold (Scheme candidate) (Scheme entry)
   && EqualFold (Hostname candidate) (Hostname entry)
   && bool_decide (Port candidate = Port entry)
   && bool_decide (Path candidate = Path entry)
   && bool_decide (RawQuery candidate = RawQuery entry))%bool.

(** Modelled from the spec: [validRedirect] (path_oidc.go) is not among the
    sources; this is the [isAllowed] of §4.6, a strict allow-list: some
    entry matches the candidate, the port compared like the rest. *)
Definition isAllowed (uri : string) (allowed : list string) : bool :=
  existsb (λ entry, structuralMatch (parseURI uri) (parseURI entry)) allowed.


(** The table of [TestOIDC_ValidRedirect]: uri, allowed, expected. *)
Definition testTable : list (string * list string * bool) :=
  [ (* valid *)
    ("https://example.com", ["https://example.com"], true);
    ("https://example.com:5000", ["a"; "b"; "https://example.com:5000"], true);
    ("https://example.com/a/b/c", ["a"; "b"; "https://example.com/a/b/c"], true);
    ("https://localhost:9000", ["a"; "b"; "https://localhost:5000"], true);
    ("https://127.0.0.1:9000", ["a"; "b"; "https://127.0.0.1:5000"], true);
    ("https://[::1]:9000", ["a"; "b"; "https://[::1]:5000"], true);
    ("https://[::1]:9000/x/y?r=42", ["a"; "b"; "https://[::1]:5000/x/y?r=42"], true);
    (* invalid *)
    ("https://example.com", [], false);
    ("http://example.com", ["a"; "b"; "https://example.com"], false);
    ("https://example.com:9000", ["a"; "b"; "https://example.com:5000"], false);
    ("https://[::2]:9000", ["a"; "b"; "https://[::2]:5000"], false);
    ("https://localhost:5000", ["a"; "b"; "https://127.0.0.1:5000"], false);
    ("https://localhost:5000", ["a"; "b"; "https://127.0.0.1:5000"], false);
    ("https://localhost:5000", ["a"; "b"; "http://localhost:5000"], false);
    ("https://[::1]:5000/x/y?r=42", ["a"; "b"; "https://[::1]:5000/x/y?r=43"], false) ].

(** The loop of the test: the rows on which [f] misses the expectation.
    The test passes on [f] when there is none. *)
Definition failingRows (f : string → list string → bool)
  : list (string * list string * bool) :=
  filter (λ '(uri, allowed, expected), f uri allowed ≠ expected) testTable.



End Redirect.

(** ** The three verdicts on one entry of the bound claims *)

(** The claim is there and [expValue == actValue] holds. *)
Definition boundClaimPasses (coerceInt : string → option Z)
    (allClaims : gmap string value) (claim : string) (expValue : value) : Prop :=
  claimOf coerceInt allClaims claim ≠ VNil
  ∧ ifaceEq expValue (claimOf coerceInt allClaims claim) = Returns true.

(** [getClaim] yields nil. *)
Definition boundClaimMissing (coerceInt : string → option Z)
    (allClaims : gmap string value) (claim : string) : Prop :=
  claimOf coerceInt allClaims claim = VNil.

(** The claim is there and [expValue != actValue] holds. *)
Definition boundClaimMismatch (coerceInt : string → option Z)
    (allClaims : gmap string value) (claim : string) (expValue : value) : Prop :=
  claimOf coerceInt allClaims claim ≠ VNil
  ∧ ifaceEq expValue (claimOf coerceInt allClaims claim) = Returns false.

(** ** What [extractMetadata] makes of one mapping *)

(** The claim is there and the assertion [value.(string)] fails. *)
Definition notAString (coerceInt : string → option Z)
    (allClaims : gmap string value) (source : string) : Prop :=
  claimOf coerceInt allClaims source ≠ VNil
  ∧ ∀ strValue, claimOf coerceInt allClaims source ≠ VString strValue.

(** The writes [metadata[target] = strValue] of the loop, in the order of
    the visit. *)
Definition metadataWrites (coerceInt : string → option Z)
    (allClaims : gmap string value) (entries : list (string * string))
    (metadata : gmap string string) : gmap string string :=
  foldl (λ metadata '(source, target),
           match claimOf coerceInt allClaims source with
           | VString strValue => <[target := strValue]> metadata
           | _ => metadata
           end)
        metadata entries.

(** ** Vocabulary for the further properties *)

(** The byte [b] occurs in [s]. *)
Fixpoint hasByte (b : ascii) (s : string) : bool :=
  match s with
  | EmptyString => false
  | String c rest => (Ascii.eqb c b || hasByte b rest)%bool
  end.

(** The escaping of RFC 6901 that [pointerstructure.unescape] undoes: "~"
    is written ~0 and "/" is written ~1. *)
Fixpoint escape (key : string) : string :=
  match key with
  | EmptyString => EmptyString
  | String c rest =>
      if Ascii.eqb c "~" then String "~" (String "0" (escape rest))
      else if Ascii.eqb c "/" then String "~" (String "1" (escape rest))
      else String c (escape rest)
  end.

(** The directory answers the pages [ps] one after the other from
    [pageToken] on: each page names the next, the last names none. *)
Fixpoint answers {Group : Type}
    (directoryDo : GoogleGroups.request → GoogleGroups.page Group + string)
    (subject userKey pageToken : string) (ps : list (GoogleGroups.page Group))
  : Prop :=
  match ps with
  | [] => False
  | p :: rest =>
      directoryDo (GoogleGroups.Request subject userKey pageToken) = inl p
      ∧ match rest with
        | [] => GoogleGroups.NextPageToken Group p = ""
        | _ :: _ =>
            GoogleGroups.NextPageToken Group p ≠ ""
            ∧ answers directoryDo subject userKey
                (GoogleGroups.NextPageToken Group p) rest
        end
  end.

(** The requests that fetch the pages [ps] from [pageToken] on. *)
Fixpoint requestsFor {Group : Type} (subject userKey pageToken : string)
    (ps : list (GoogleGroups.page Group)) : list GoogleGroups.request :=
  match ps with
  | [] => []
  | p :: rest =>
      GoogleGroups.Request subject userKey pageToken
      :: requestsFor subject userKey (GoogleGroups.NextPageToken Group p) rest
  end.

(** A configured directory of two pages, and one that fails on the second
    request, to run the model on. *)
Definition sampleConfig : GoogleGroups.jwtConfig :=
  {| GoogleGroups.GoogleDirectoryServiceAccountKey := "{}";
     GoogleGroups.GoogleDirectoryImpersonateUser := "admin@example.com" |}.

Definition twoPages (req : GoogleGroups.request)
  : GoogleGroups.page string + string :=
  if bool_decide (GoogleGroups.reqPageToken req = "")
  then inl (GoogleGroups.Page string ["staff"; "dev"] "p2")
  else if bool_decide (GoogleGroups.reqPageToken req = "p2")
  then inl (GoogleGroups.Page string ["ops"] "")
  else inr "unknown page token".

Definition secondPageFails (req : GoogleGroups.request)
  : GoogleGroups.page string + string :=
  if bool_decide (GoogleGroups.reqPageToken req = "")
  then inl (GoogleGroups.Page string ["staff"; "dev"] "p2")
  else inr "quota exceeded".

(** A directory that names a next page in every answer. *)
Definition endlessPages (req : GoogleGroups.request)
  : GoogleGroups.page string + string :=
  inl (GoogleGroups.Page string ["staff"] "more").

(** * Properties *)

Section ClaimsFacts.
Variable coerceInt : string → option Z.
Context `{MapRange}.

Lemma world_eta (w : world) : World (allClaimsOf w) (logged w ++ [])%list = w.
Proof. destruct w; simpl. by rewrite app_nil_r. Qed.

(** A run of [getClaim] returns, hands back [claimOf], and only appends to
    the log. *)
Lemma getClaim_run (claim : string) (w : world) :
  ∃ lg, getClaim coerceInt claim w =
        (Returns (claimOf coerceInt (allClaimsOf w) claim),
         World (allClaimsOf w) (logged w ++ lg)%list).
Proof.
  unfold claimOf, getClaim, bind, readClaims, ret, loggerWarn; simpl.
  destruct (negb (HasPrefix claim "/")); simpl.
  - exists []. by rewrite world_eta.
  - destruct (pointerstructure.Get coerceInt _ claim) as [val|err]; simpl.
    + exists []. by rewrite world_eta.
    + by eexists [_].
Qed.

Lemma validateBoundClaimsLoop_frame (entries : list (string * value)) (w : world) :
  allClaimsOf (validateBoundClaimsLoop coerceInt entries w).2 = allClaimsOf w.
Proof.
  revert w. induction entries as [|[claim expValue] rest IH]; intros w; simpl; [done|].
  unfold bind at 1. destruct (getClaim_run claim w) as [lg ->].
  destruct (isNil _); [done|].
  unfold bind, liftOutcome. destruct (ifaceEq _ _) as [[]|p]; simpl; try done.
  by rewrite IH.
Qed.

Lemma extractMetadataLoop_frame (entries : list (string * string))
    (metadata : gmap string string) (w : world) :
  allClaimsOf (extractMetadataLoop coerceInt entries metadata w).2 = allClaimsOf w.
Proof.
  revert metadata w.
  induction entries as [|[source target] rest IH]; intros metadata w; simpl; [done|].
  unfold bind at 1. destruct (getClaim_run source w) as [lg ->].
  destruct (claimOf _ _ _); simpl; try done; by rewrite IH.
Qed.

End ClaimsFacts.
Section BoundClaimsFacts.
Variable coerceInt : string → option Z.
Context `{MapRange}.

Abbreviation passes := (boundClaimPasses coerceInt).
Abbreviation missing := (boundClaimMissing coerceInt).
Abbreviation mismatch := (boundClaimMismatch coerceInt).
Abbreviation loop := (validateBoundClaimsLoop coerceInt).

Lemma isNil_true (v : value) : isNil v = true ↔ v = VNil.
Proof. by destruct v. Qed.

Lemma isNil_false (v : value) : isNil v = false ↔ v ≠ VNil.
Proof. by destruct v. Qed.

(** One turn of the loop, in terms of the verdict on its entry. *)
Lemma loop_cons (claim : string) (expValue : value)
    (rest : list (string * value)) (w : world) :
  ∃ w', allClaimsOf w' = allClaimsOf w ∧
    loop ((claim, expValue) :: rest) w =
    if isNil (claimOf coerceInt (allClaimsOf w) claim)
    then (Returns (Some (ErrClaimMissing claim)), w')
    else match ifaceEq expValue (claimOf coerceInt (allClaimsOf w) claim) with
         | Returns true => loop rest w'
         | Returns false => (Returns (Some (ErrClaimMismatch claim)), w')
         | Panics p => (Panics p, w')
         end.
Proof.
  destruct (getClaim_run coerceInt claim w) as [lg Hrun].
  eexists (World _ _). split; [reflexivity|].
  simpl. unfold bind at 1. rewrite Hrun.
  destruct (isNil _); [done|].
  unfold bind, liftOutcome. by destruct (ifaceEq _ _) as [[]|p].
Qed.

Lemma loop_pass_iff (entries : list (string * value)) (w : world) :
  (loop entries w).1 = Returns None
  ↔ ∀ claim expValue, (claim, expValue) ∈ entries →
      passes (allClaimsOf w) claim expValue.
Proof.
  revert w. induction entries as [|[claim expValue] rest IH]; intros w.
  - split; [|done]. intros _ c e Hin. by apply elem_of_nil in Hin.
  - destruct (loop_cons claim expValue rest w) as (w' & Hw' & ->).
    unfold boundClaimPasses.
    destruct (isNil _) eqn:Hnil.
    + split; [done|]. intros Hall.
      destruct (Hall claim expValue) as [Hne _]; [left|].
      apply isNil_true in Hnil. done.
    + apply isNil_false in Hnil.
      destruct (ifaceEq _ _) as [[]|p] eqn:Heq; simpl.
      * rewrite IH, Hw'. split.
        -- intros Hall c e [[= -> ->]|Hin]%elem_of_cons; [done|]. by apply Hall.
        -- intros Hall c e Hin. apply Hall. by right.
      * split; [done|]. intros Hall.
        destruct (Hall claim expValue) as [_ Heq']; [left|]. congruence.
      * split; [done|]. intros Hall.
        destruct (Hall claim expValue) as [_ Heq']; [left|]. congruence.
Qed.

(** The entries visited before the first that does not pass leave no mark
    on the result. *)
Lemma loop_skip_passing (visited rest : list (string * value)) (w : world) :
  Forall (λ '(c, e), passes (allClaimsOf w) c e) visited →
  ∃ w', allClaimsOf w' = allClaimsOf w ∧ loop (visited ++ rest) w = loop rest w'.
Proof.
  revert w. induction visited as [|[c e] visited IH]; intros w Hall.
  - by exists w.
  - apply Forall_cons in Hall as [[Hne Heq] Hall].
    change (((c, e) :: visited) ++ rest) with ((c, e) :: (visited ++ rest)).
    destruct (loop_cons c e (visited ++ rest) w) as (w1 & Hw1 & ->).
    apply isNil_false in Hne. rewrite Hne, Heq.
    destruct (IH w1) as (w2 & Hw2 & ->); [by rewrite Hw1|].
    exists w2. split; [congruence|done].
Qed.

Lemma loop_first_missing (visited rest : list (string * value))
    (claim : string) (expValue : value) (w : world) :
  Forall (λ '(c, e), passes (allClaimsOf w) c e) visited →
  missing (allClaimsOf w) claim →
  (loop (visited ++ (claim, expValue) :: rest) w).1
  = Returns (Some (ErrClaimMissing claim)).
Proof.
  intros Hall Hmiss.
  destruct (loop_skip_passing visited ((claim, expValue) :: rest) w Hall)
    as (w1 & Hw1 & ->).
  destruct (loop_cons claim expValue rest w1) as (w2 & _ & ->).
  unfold boundClaimMissing in Hmiss. by rewrite Hw1, Hmiss.
Qed.

Lemma loop_first_mismatch (visited rest : list (string * value))
    (claim : string) (expValue : value) (w : world) :
  Forall (λ '(c, e), passes (allClaimsOf w) c e) visited →
  mismatch (allClaimsOf w) claim expValue →
  (loop (visited ++ (claim, expValue) :: rest) w).1
  = Returns (Some (ErrClaimMismatch claim)).
Proof.
  intros Hall [Hne Heq].
  destruct (loop_skip_passing visited ((claim, expValue) :: rest) w Hall)
    as (w1 & Hw1 & ->).
  destruct (loop_cons claim expValue rest w1) as (w2 & _ & ->).
  apply isNil_false in Hne. by rewrite Hw1, Hne, Heq.
Qed.

Lemma loop_error_sound (entries : list (string * value)) (w : world) (err : error) :
  (loop entries w).1 = Returns (Some err) →
  (∃ claim expValue, (claim, expValue) ∈ entries ∧ err = ErrClaimMissing claim
                     ∧ missing (allClaimsOf w) claim)
  ∨ (∃ claim expValue, (claim, expValue) ∈ entries ∧ err = ErrClaimMismatch claim
                       ∧ mismatch (allClaimsOf w) claim expValue).
Proof.
  revert w. induction entries as [|[claim expValue] rest IH]; intros w; [done|].
  destruct (loop_cons claim expValue rest w) as (w' & Hw' & ->).
  unfold boundClaimMissing, boundClaimMismatch.
  destruct (isNil _) eqn:Hnil.
  - intros [= <-]. left. exists claim, expValue. apply isNil_true in Hnil.
    repeat split; try done. apply elem_of_cons; by left.
  - apply isNil_false in Hnil. destruct (ifaceEq _ _) as [[]|p] eqn:Heq; simpl.
    + intros Hr. rewrite <- Hw'.
      destruct (IH _ Hr) as [(c & e & Hin & ? & ?)|(c & e & Hin & ? & ?)];
        [left|right]; exists c, e; (split; [apply elem_of_cons; by right|done]).
    + intros [= <-]. right. exists claim, expValue. repeat split; try done. apply elem_of_cons; by left.
    + done.
Qed.

End BoundClaimsFacts.
Section MetadataFacts.
Variable coerceInt : string → option Z.
Context `{MapRange}.

Abbreviation emLoop := (extractMetadataLoop coerceInt).

Lemma emLoop_cons (source target : string) (rest : list (string * string))
    (metadata : gmap string string) (w : world) :
  ∃ w', allClaimsOf w' = allClaimsOf w ∧
    emLoop ((source, target) :: rest) metadata w =
    match claimOf coerceInt (allClaimsOf w) source with
    | VNil => emLoop rest metadata w'
    | VString strValue => emLoop rest (<[target := strValue]> metadata) w'
    | _ => (Returns (None, Some (ErrConvert source)), w')
    end.
Proof.
  destruct (getClaim_run coerceInt source w) as [lg Hrun].
  eexists (World _ _). split; [reflexivity|].
  simpl. unfold bind at 1. rewrite Hrun. by destruct (claimOf _ _ _).
Qed.

Lemma notAString_dec (allClaims : gmap string value) (source : string) :
  notAString coerceInt allClaims source
  ∨ claimOf coerceInt allClaims source = VNil
  ∨ ∃ strValue, claimOf coerceInt allClaims source = VString strValue.
Proof.
  unfold notAString. destruct (claimOf _ _ _); eauto; left; by split.
Qed.

Lemma emLoop_ok (entries : list (string * string))
    (metadata : gmap string string) (w : world) :
  (∀ source target, (source, target) ∈ entries →
     ¬ notAString coerceInt (allClaimsOf w) source) →
  (emLoop entries metadata w).1
  = Returns (Some (metadataWrites coerceInt (allClaimsOf w) entries metadata), None).
Proof.
  revert metadata w.
  induction entries as [|[source target] rest IH]; intros metadata w Hall; [done|].
  destruct (emLoop_cons source target rest metadata w) as (w' & Hw' & ->).
  assert (Hrest : ∀ s t, (s, t) ∈ rest → ¬ notAString coerceInt (allClaimsOf w') s).
  { intros s t Hin. rewrite Hw'. apply (Hall s t), elem_of_cons. by right. }
  unfold metadataWrites; simpl.
  destruct (notAString_dec (allClaimsOf w) source) as [Hbad|[Hnil|[s Hs]]].
  - destruct (Hall source target); [apply elem_of_cons; by left|done].
  - rewrite Hnil, IH, Hw'; done.
  - rewrite Hs, IH, Hw'; done.
Qed.

Lemma emLoop_error (entries : list (string * string))
    (metadata : gmap string string) (w : world) :
  (∃ source target, (source, target) ∈ entries
                    ∧ notAString coerceInt (allClaimsOf w) source) →
  ∃ source target, (source, target) ∈ entries
    ∧ notAString coerceInt (allClaimsOf w) source
    ∧ (emLoop entries metadata w).1 = Returns (None, Some (ErrConvert source)).
Proof.
  revert metadata w.
  induction entries as [|[source target] rest IH]; intros metadata w.
  { intros (s & t & Hin & _). by apply elem_of_nil in Hin. }
  intros (s & t & Hin & Hbad).
  destruct (emLoop_cons source target rest metadata w) as (w' & Hw' & Hrun).
  destruct (notAString_dec (allClaimsOf w) source) as [Hhere|Hgood].
  - exists source, target. split; [apply elem_of_cons; by left|]. split; [done|].
    rewrite Hrun. destruct Hhere as [Hne Hns].
    destruct (claimOf _ _ _) eqn:Hc; try done. by destruct (Hns s0).
  - assert (Hrest : ∃ s t, (s, t) ∈ rest ∧ notAString coerceInt (allClaimsOf w') s).
    { exists s, t. rewrite Hw'. split; [|done].
      apply elem_of_cons in Hin as [[= -> ->]|Hin]; [|done].
      destruct Hbad as [Hne Hns]. destruct Hgood as [Hnil|[s' Hs']]; [done|].
      by destruct (Hns s'). }
    assert (Hstep : ∃ md, emLoop ((source, target) :: rest) metadata w = emLoop rest md w').
    { rewrite Hrun. destruct Hgood as [->|[s' ->]]; eauto. }
    destruct Hstep as [md ->].
    destruct (IH md w' Hrest) as (s1 & t1 & Hin1 & Hbad1 & Hr1).
    exists s1, t1. rewrite <- Hw'. split; [apply elem_of_cons; by right|done].
Qed.

(** Every entry of the map that the writes leave was written for a source
    that resolves to that string, or was there before. *)
Lemma metadataWrites_inv (allClaims : gmap string value)
    (entries : list (string * string)) (metadata : gmap string string)
    (target strValue : string) :
  metadataWrites coerceInt allClaims entries metadata !! target = Some strValue →
  metadata !! target = Some strValue
  ∨ ∃ source, (source, target) ∈ entries
              ∧ claimOf coerceInt allClaims source = VString strValue.
Proof.
  revert metadata. induction entries as [|[s t] rest IH]; intros metadata; [by left|].
  unfold metadataWrites; simpl. fold (metadataWrites coerceInt allClaims rest).
  intros Hl. apply IH in Hl as [Hl|(src & Hin & Hsrc)].
  - destruct (claimOf coerceInt allClaims s) eqn:Hs; try by left.
    destruct (decide (t = target)) as [->|Hne].
    + rewrite lookup_insert_eq in Hl. injection Hl as ->.
      right. exists s. split; [apply elem_of_cons; by left|done].
    + rewrite lookup_insert_ne in Hl by done. by left.
  - right. exists src. split; [apply elem_of_cons; by right|done].
Qed.

(** A target written by the loop holds a string; the one all its sources
    resolve to, when they agree. *)
Lemma metadataWrites_agree (allClaims : gmap string value)
    (entries : list (string * string)) (metadata : gmap string string)
    (target strValue : string) :
  (metadata !! target = Some strValue
   ∨ ∃ source, (source, target) ∈ entries
               ∧ claimOf coerceInt allClaims source = VString strValue) →
  (∀ source' s', (source', target) ∈ entries →
     claimOf coerceInt allClaims source' = VString s' → s' = strValue) →
  metadataWrites coerceInt allClaims entries metadata !! target = Some strValue.
Proof.
  revert metadata. induction entries as [|[s t] rest IH]; intros metadata Hsrc Hagree.
  { destruct Hsrc as [?|(src & Hin & _)]; [done|]. by apply elem_of_nil in Hin. }
  unfold metadataWrites; simpl. fold (metadataWrites coerceInt allClaims rest).
  apply IH.
  - destruct Hsrc as [Hm|(src & [[= -> ->]|Hin]%elem_of_cons & Hc)].
    + left. destruct (claimOf coerceInt allClaims s) eqn:Hs; try done.
      destruct (decide (t = target)) as [->|Hne].
      * rewrite lookup_insert_eq. f_equal. apply (Hagree s); [apply elem_of_cons; by left|done].
      * by rewrite lookup_insert_ne.
    + left. rewrite Hc. apply lookup_insert_eq.
    + right. by exists src.
  - intros src' s' Hin. apply Hagree, elem_of_cons. by right.
Qed.

Lemma metadataWrites_some (allClaims : gmap string value)
    (entries : list (string * string)) (metadata : gmap string string)
    (target : string) :
  (is_Some (metadata !! target)
   ∨ ∃ source strValue, (source, target) ∈ entries
               ∧ claimOf coerceInt allClaims source = VString strValue) →
  is_Some (metadataWrites coerceInt allClaims entries metadata !! target).
Proof.
  revert metadata. induction entries as [|[s t] rest IH]; intros metadata Hsrc.
  { destruct Hsrc as [?|(src & v & Hin & _)]; [done|]. by apply elem_of_nil in Hin. }
  unfold metadataWrites; simpl. fold (metadataWrites coerceInt allClaims rest).
  apply IH.
  destruct Hsrc as [Hm|(src & v & [[= -> ->]|Hin]%elem_of_cons & Hc)].
  - left. destruct (claimOf coerceInt allClaims s) eqn:Hs; try done.
    destruct (decide (t = target)) as [->|Hne].
    + rewrite lookup_insert_eq. eauto.
    + by rewrite lookup_insert_ne.
  - left. rewrite Hc, lookup_insert_eq. eauto.
  - right. by exists src, v.
Qed.

End MetadataFacts.
Section AudienceAndGroupsFacts.
Context `{MapRange}.

Lemma elem_of_range {V : Type} (m : gmap string V) (k : string) (v : V) :
  (k, v) ∈ range m ↔ m !! k = Some v.
Proof. rewrite range_perm. apply elem_of_map_to_list. Qed.

Lemma NoDup_fst_range {V : Type} (m : gmap string V) : NoDup (range m).*1.
Proof. rewrite range_perm. apply NoDup_fst_map_to_list. Qed.

Lemma StrListContains_elem_of (haystack : list string) (needle : string) :
  StrListContains haystack needle = true ↔ needle ∈ haystack.
Proof.
  induction haystack as [|item rest IH]; simpl.
  - split; [done|]. intros Hin. by apply elem_of_nil in Hin.
  - rewrite elem_of_cons. case_bool_decide as Heq.
    + split; [|done]. intros _. by left.
    + rewrite IH. split; [by right|]. intros [->|Hin]; done.
Qed.

Lemma anyBoundAudience_true (boundAudiences audClaim : list string) :
  anyBoundAudience boundAudiences audClaim = true
  ↔ ∃ v, v ∈ boundAudiences ∧ v ∈ audClaim.
Proof.
  induction boundAudiences as [|v rest IH]; simpl.
  - split; [done|]. intros (v & Hin & _). by apply elem_of_nil in Hin.
  - destruct (StrListContains audClaim v) eqn:Hc.
    + apply StrListContains_elem_of in Hc. split; [|done].
      intros _. exists v. split; [apply elem_of_cons; by left|done].
    + rewrite IH. split.
      * intros (u & Hin & Hu). exists u. split; [apply elem_of_cons; by right|done].
      * intros (u & [->|Hin]%elem_of_cons & Hu).
        -- apply StrListContains_elem_of in Hu. congruence.
        -- by exists u.
Qed.

(** After the first loop, exactly the bound groups are keys, all unmarked. *)
Lemma setGroups_lookup (boundGroups : list string) (g : string) :
  (g ∈ boundGroups → setGroups boundGroups !! g = Some false)
  ∧ (g ∉ boundGroups → setGroups boundGroups !! g = None).
Proof.
  unfold setGroups.
  assert (Hgen : ∀ m : gmap string bool,
    let m' := foldl (λ groupFound group, <[group := false]> groupFound) m boundGroups in
    (g ∈ boundGroups → m' !! g = Some false) ∧ (g ∉ boundGroups → m' !! g = m !! g)).
  { induction boundGroups as [|b rest IH]; intros m; simpl.
    - split; [|done]. intros Hin. by apply elem_of_nil in Hin.
    - destruct (IH (<[b := false]> m)) as [IHin IHout]. split.
      + intros Hin. destruct (decide (g ∈ rest)) as [Hr|Hr]; [by apply IHin|].
        apply elem_of_cons in Hin as [->|Hin]; [|done].
        rewrite IHout by done. apply lookup_insert_eq.
      + intros Hout. apply not_elem_of_cons in Hout as [Hne Hout].
        rewrite IHout by done. by apply lookup_insert_ne. }
  destruct (Hgen ∅) as [Hin Hout]. split; [done|].
  intros Hg. by rewrite Hout.
Qed.

(** The second loop marks the keys that name an alias and adds none. *)
Lemma markAliases_lookup (groupFound : gmap string bool)
    (groupAliases : list Alias) (g : string) :
  markAliases groupFound groupAliases !! g
  = (λ found, found || bool_decide (g ∈ Name <$> groupAliases)) <$> groupFound !! g.
Proof.
  unfold markAliases. revert groupFound.
  induction groupAliases as [|a rest IH]; intros groupFound; simpl.
  - destruct (groupFound !! g) as [b|]; simpl; [|done].
    by rewrite orb_false_r.
  - rewrite IH. destruct (decide (g = Name a)) as [->|Hne].
    + destruct (groupFound !! Name a) as [b|] eqn:Hl; simpl; [|by rewrite Hl].
      rewrite lookup_insert_eq. simpl.
      rewrite !bool_decide_eq_true_2; [by rewrite orb_true_r|..];
        apply elem_of_cons; by left.
    + assert (Hmem : bool_decide (g ∈ Name <$> rest)
                     = bool_decide (g ∈ Name a :: (Name <$> rest))).
      { apply bool_decide_ext. rewrite elem_of_cons. split; [by right|].
        intros [?|?]; done. }
      rewrite Hmem.
      destruct (groupFound !! Name a) as [b|]; [|done].
      by rewrite lookup_insert_ne.
Qed.

(** The third loop keeps, in the order of the visit, the unmarked keys. *)
Lemma collectMissing_filter (entries : list (string * bool)) :
  collectMissing entries = (filter (λ e, e.2 = false) entries).*1.
Proof.
  unfold collectMissing.
  assert (Hgen : ∀ acc : list string,
    foldl (λ (groupsMissing : list string) '(key, value),
             if negb value then groupsMissing ++ [key] else groupsMissing)
          acc entries
    = acc ++ (filter (λ e, e.2 = false) entries).*1).
  { induction entries as [|[k v] rest IH]; intros acc; simpl.
    - by rewrite app_nil_r.
    - rewrite IH, filter_cons. destruct v; simpl; [done|].
      by rewrite <- app_assoc. }
  apply (Hgen []).
Qed.

Lemma collectMissing_range (groupFound : gmap string bool) (g : string) :
  g ∈ collectMissing (range groupFound) ↔ groupFound !! g = Some false.
Proof.
  rewrite collectMissing_filter, list_elem_of_fmap. split.
  - intros ([k v] & -> & [Hv Hin]%list_elem_of_filter). simpl in *. subst v.
    by apply elem_of_range.
  - intros Hl. exists (g, false). split; [done|].
    apply list_elem_of_filter. split; [done|]. by apply elem_of_range.
Qed.

Lemma collectMissing_NoDup (groupFound : gmap string bool) :
  NoDup (collectMissing (range groupFound)).
Proof.
  rewrite collectMissing_filter.
  eapply sublist_NoDup; [apply (NoDup_fst_range groupFound)|].
  apply fmap_sublist, sublist_filter; apply _.
Qed.

End AudienceAndGroupsFacts.
Section NullFacts.
Variable coerceInt : string → option Z.
Context `{MapRange}.

Lemma claimOf_unfold (allClaims : gmap string value) (claim : string) :
  claimOf coerceInt allClaims claim =
  if negb (HasPrefix claim "/") then default VNil (allClaims !! claim)
  else match pointerstructure.Get coerceInt (VMap allClaims) claim with
       | inl val => val
       | inr _ => VNil
       end.
Proof.
  unfold claimOf, getClaim, bind, readClaims, ret, loggerWarn; simpl.
  destruct (negb (HasPrefix claim "/")); [done|].
  by destruct (pointerstructure.Get coerceInt _ claim).
Qed.

Lemma splitParts_cons (input : string) :
  ∃ p ps, pointerstructure.splitParts input = p :: ps.
Proof.
  induction input as [|c rest (p & ps & IH)]; simpl; [by eauto|].
  destruct (Ascii.eqb c "/"); [by eauto|]. rewrite IH. by eauto.
Qed.

(** Below a null, a pointer finds nothing: nil itself at the end of the
    path, an error further down. *)
Lemma getParts_nil (i : nat) (parts : list string) :
  match pointerstructure.getParts coerceInt i parts VNil with
  | inl val => val
  | inr _ => VNil
  end = VNil.
Proof. by destruct parts. Qed.

(** A claim bound to null and the same claim left out give [getClaim] the
    same value, whatever the key asked for. *)
Lemma claimOf_null_absent (allClaims : gmap string value) (k claim : string) :
  claimOf coerceInt (<[k := VNil]> allClaims) claim
  = claimOf coerceInt (delete k allClaims) claim.
Proof.
  rewrite !claimOf_unfold. destruct (negb (HasPrefix claim "/")) eqn:Hpre.
  - destruct (decide (k = claim)) as [->|Hne].
    + by rewrite lookup_insert_eq, lookup_delete_eq.
    + by rewrite lookup_insert_ne, lookup_delete_ne.
  - unfold pointerstructure.Get.
    destruct (pointerstructure.Parse claim) as [parts|err] eqn:Hp; [|done].
    destruct parts as [|part rest].
    { unfold pointerstructure.Parse in Hp. destruct claim as [|c claim]; simpl in *.
      - done.
      - destruct (Ascii.eqb c "/"); [|done].
        destruct (splitParts_cons claim) as (p & ps & Hs). rewrite Hs in Hp. done. }
    simpl. destruct (decide (k = part)) as [->|Hne].
    + rewrite lookup_insert_eq, lookup_delete_eq. apply getParts_nil.
    + by rewrite lookup_insert_ne, lookup_delete_ne.
Qed.
End NullFacts.
Section ConsumersOfClaimOf.
Variable coerceInt : string → option Z.
Context `{MapRange}.

(** The two loops see the claim set only through [claimOf]. *)
Lemma validateBoundClaimsLoop_ext (entries : list (string * value)) (w1 w2 : world) :
  (∀ claim, claimOf coerceInt (allClaimsOf w1) claim
            = claimOf coerceInt (allClaimsOf w2) claim) →
  (validateBoundClaimsLoop coerceInt entries w1).1
  = (validateBoundClaimsLoop coerceInt entries w2).1.
Proof.
  revert w1 w2. induction entries as [|[claim expValue] rest IH]; intros w1 w2 Hext; [done|].
  destruct (loop_cons coerceInt claim expValue rest w1) as (w1' & Hw1 & ->).
  destruct (loop_cons coerceInt claim expValue rest w2) as (w2' & Hw2 & ->).
  rewrite Hext. destruct (isNil _); [done|].
  destruct (ifaceEq _ _) as [[]|p]; try done.
  apply IH. intros c. by rewrite Hw1, Hw2.
Qed.

Lemma extractMetadataLoop_ext (entries : list (string * string))
    (metadata : gmap string string) (w1 w2 : world) :
  (∀ claim, claimOf coerceInt (allClaimsOf w1) claim
            = claimOf coerceInt (allClaimsOf w2) claim) →
  (extractMetadataLoop coerceInt entries metadata w1).1
  = (extractMetadataLoop coerceInt entries metadata w2).1.
Proof.
  revert metadata w1 w2.
  induction entries as [|[source target] rest IH]; intros metadata w1 w2 Hext; [done|].
  destruct (emLoop_cons coerceInt source target rest metadata w1) as (w1' & Hw1 & ->).
  destruct (emLoop_cons coerceInt source target rest metadata w2) as (w2' & Hw2 & ->).
  rewrite Hext.
  destruct (claimOf _ _ _); try done; apply IH; intros c; by rewrite Hw1, Hw2.
Qed.

Lemma range_singleton {V : Type} (k : string) (v : V) :
  range ({[ k := v ]} : gmap string V) = [(k, v)].
Proof. apply Permutation_singleton_r. by rewrite range_perm, map_to_list_singleton. Qed.

End ConsumersOfClaimOf.

(** ** Parsing and walking pointers *)

Lemma Replace2_skip (c1 c2 new x : ascii) (s : string) :
  x ≠ c1 → Replace2 c1 c2 new (String x s) = String x (Replace2 c1 c2 new s).
Proof.
  intros Hx. destruct s as [|d rest]; [done|].
  cbn [Replace2]. fold (Replace2 c1 c2 new).
  destruct (Ascii.eqb_spec x c1); [done|]. done.
Qed.

Lemma unescape_other (c : ascii) (s : string) :
  c ≠ "~"%char →
  pointerstructure.unescape (String c s) = String c (pointerstructure.unescape s).
Proof.
  intros Hc. unfold pointerstructure.unescape. by rewrite !Replace2_skip by done.
Qed.

Lemma unescape_tilde0 (s : string) :
  pointerstructure.unescape (String "~" (String "0" s))
  = String "~" (pointerstructure.unescape s).
Proof.
  unfold pointerstructure.unescape.
  change (Replace2 "~" "1" "/" (String "~" (String "0" s)))
    with (String "~" (Replace2 "~" "1" "/" (String "0" s))).
  rewrite (Replace2_skip "~" "1" "/" "0") by done. reflexivity.
Qed.

Lemma unescape_tilde1 (s : string) :
  pointerstructure.unescape (String "~" (String "1" s))
  = String "/" (pointerstructure.unescape s).
Proof.
  unfold pointerstructure.unescape.
  change (Replace2 "~" "1" "/" (String "~" (String "1" s)))
    with (String "/" (Replace2 "~" "1" "/" s)).
  by rewrite Replace2_skip by done.
Qed.

(** Unescaping undoes the escaping, for every key. *)
Lemma unescape_escape (key : string) :
  pointerstructure.unescape (escape key) = key.
Proof.
  induction key as [|c rest IH]; [done|]. simpl.
  destruct (Ascii.eqb_spec c "~") as [->|Htilde].
  - by rewrite unescape_tilde0, IH.
  - destruct (Ascii.eqb_spec c "/") as [->|Hslash].
    + by rewrite unescape_tilde1, IH.
    + by rewrite unescape_other, IH.
Qed.

Lemma escape_no_slash (key : string) : hasByte "/" (escape key) = false.
Proof.
  induction key as [|c rest IH]; [done|]. simpl.
  destruct (Ascii.eqb_spec c "~") as [->|Htilde]; [done|].
  destruct (Ascii.eqb_spec c "/") as [->|Hslash]; [done|].
  simpl. rewrite IH. by destruct (Ascii.eqb_spec c "/").
Qed.

(** A key free of "~" and "/" is its own escaping. *)
Lemma escape_plain (key : string) :
  hasByte "/" key = false → hasByte "~" key = false → escape key = key.
Proof.
  induction key as [|c rest IH]; [done|]. simpl.
  intros [Hc Hs]%orb_false_elim [Hc' Ht]%orb_false_elim.
  rewrite Hc', Hc. by rewrite IH.
Qed.

Lemma splitParts_no_slash (s : string) :
  hasByte "/" s = false → pointerstructure.splitParts s = [s].
Proof.
  induction s as [|c rest IH]; [done|]. simpl.
  intros [Hc Hs]%orb_false_elim. rewrite Hc, IH; done.
Qed.

Lemma splitParts_app_slash (a b : string) :
  pointerstructure.splitParts (a +:+ String "/" b)
  = pointerstructure.splitParts a ++ pointerstructure.splitParts b.
Proof.
  induction a as [|c a IH]; [done|]. simpl.
  destruct (Ascii.eqb c "/"); [by rewrite IH|].
  rewrite IH. destruct (splitParts_cons a) as (p & ps & ->). done.
Qed.

Lemma prefix_slash (s : string) :
  HasPrefix s "/" = match s with
                    | String c _ => Ascii.eqb c "/"
                    | EmptyString => false
                    end.
Proof.
  destruct s as [|c rest]; [done|]. unfold HasPrefix.
  change (String.prefix "/" (String c rest))
    with (match ascii_dec "/" c with
          | left _ => String.prefix "" rest
          | right _ => false
          end).
  destruct (ascii_dec "/" c) as [<-|Hne].
  - by destruct rest.
  - symmetry. apply Ascii.eqb_neq. congruence.
Qed.

(** Appending one part to a pointer appends one part to its parse. *)
Lemma Parse_snoc (pointer key : string) (parts : list string) :
  pointerstructure.Parse pointer = inl parts →
  hasByte "/" key = false →
  pointerstructure.Parse (pointer +:+ String "/" key)
  = inl (parts ++ [pointerstructure.unescape key]).
Proof.
  intros Hp Hkey. destruct pointer as [|c rest]; simpl in *.
  - injection Hp as <-. by rewrite splitParts_no_slash.
  - destruct (Ascii.eqb c "/"); [|done]. injection Hp as <-.
    rewrite splitParts_app_slash, fmap_app. by rewrite (splitParts_no_slash key).
Qed.

Lemma getParts_app (coerceInt : string → option Z) (i : nat)
    (ps qs : list string) (v : value) :
  pointerstructure.getParts coerceInt i (ps ++ qs) v
  = match pointerstructure.getParts coerceInt i ps v with
    | inl v' => pointerstructure.getParts coerceInt (i + length ps) qs v'
    | inr err => inr err
    end.
Proof.
  revert i v. induction ps as [|p ps IH]; intros i v; simpl.
  - by rewrite Nat.add_0_r.
  - replace (i + S (length ps)) with (S i + length ps) by lia.
    destruct v; try done.
    + destruct (coerceInt p) as [idx|]; [|done].
      case_bool_decide; [done|]. destruct (l !! Z.to_nat idx); [apply IH|done].
    + destruct (m !! p); [apply IH|done].
Qed.

(** The pointer made of "/" and an escaped key resolves to that key of the
    claim set. *)
Lemma claimOf_escaped_key (coerceInt : string → option Z)
    (allClaims : gmap string value) (key : string) :
  claimOf coerceInt allClaims (String "/" (escape key))
  = default VNil (allClaims !! key).
Proof.
  rewrite claimOf_unfold, prefix_slash.
  cbn [Ascii.eqb Bool.eqb negb]. unfold pointerstructure.Get.
  cbn [pointerstructure.Parse Ascii.eqb Bool.eqb].
  rewrite splitParts_no_slash by apply escape_no_slash.
  cbn [fmap list_fmap]. rewrite unescape_escape. cbn [pointerstructure.getParts].
  by destruct (allClaims !! key).
Qed.

(** A name without "/" is looked up directly. *)
Lemma claimOf_plain_key (coerceInt : string → option Z)
    (allClaims : gmap string value) (key : string) :
  hasByte "/" key = false →
  claimOf coerceInt allClaims key = default VNil (allClaims !! key).
Proof.
  intros Hslash. rewrite claimOf_unfold, prefix_slash.
  destruct key as [|c rest]; [done|].
  simpl in Hslash. apply orb_false_elim in Hslash as [-> _]. done.
Qed.

(** "/" and one part: the claim of that name, nil when there is none. *)
Lemma claimOf_one_part (coerceInt : string → option Z)
    (allClaims : gmap string value) (key : string) :
  hasByte "/" key = false →
  claimOf coerceInt allClaims (String "/" key)
  = default VNil (allClaims !! pointerstructure.unescape key).
Proof.
  intros Hkey. rewrite claimOf_unfold, prefix_slash.
  cbn [Ascii.eqb Bool.eqb negb]. unfold pointerstructure.Get.
  cbn [pointerstructure.Parse Ascii.eqb Bool.eqb].
  rewrite (splitParts_no_slash key Hkey).
  cbn [fmap list_fmap pointerstructure.getParts].
  by destruct (allClaims !! pointerstructure.unescape key).
Qed.

(** One more part on a pointer: one level below what the pointer resolves
    to, nil below nil. *)
Lemma claimOf_one_more_part (coerceInt : string → option Z)
    (allClaims : gmap string value) (pointer key : string) :
  HasPrefix pointer "/" = true →
  hasByte "/" key = false →
  claimOf coerceInt allClaims (pointer +:+ String "/" key)
  = match claimOf coerceInt allClaims pointer with
    | VMap m => default VNil (m !! pointerstructure.unescape key)
    | VSlice l =>
        match coerceInt (pointerstructure.unescape key) with
        | Some idx =>
            if bool_decide (0 ≤ idx < Z.of_nat (length l))%Z
            then default VNil (l !! Z.to_nat idx)
            else VNil
        | None => VNil
        end
    | _ => VNil
    end.
Proof.
  intros Hpre Hkey.
  assert (Hpre' : HasPrefix (pointer +:+ String "/" key) "/" = true).
  { rewrite prefix_slash in *. by destruct pointer. }
  rewrite !claimOf_unfold, Hpre, Hpre'. cbn [negb].
  unfold pointerstructure.Get.
  destruct (pointerstructure.Parse pointer) as [parts|err] eqn:Hparse.
  2:{ rewrite prefix_slash in Hpre. destruct pointer as [|c rest]; [done|].
      simpl in Hparse. by rewrite Hpre in Hparse. }
  rewrite (Parse_snoc pointer key parts Hparse Hkey), getParts_app.
  destruct (pointerstructure.getParts coerceInt 0 parts (VMap allClaims))
    as [v|err]; [|done].
  cbn [pointerstructure.getParts]. destruct v; try done.
  - destruct (coerceInt _) as [idx|]; [|done].
    repeat case_bool_decide; try lia; try done.
    by destruct (l !! Z.to_nat idx).
  - by destruct (m !! _).
Qed.

(** ** The claim accessor *)

(** C4: [getClaim] returns on every claim set and key, and never panics. A
    key that does not start with "/" is the top-level lookup
    [allClaims[claim]], nil when the key is not there; a key that starts
    with "/" is handed to [pointerstructure.Get], whose value is returned
    as it is, and whose error (malformed or unresolvable path) is logged as
    a warning and turned into nil. What a key that starts with "/" resolves
    to is fixed part by part: "/" and one part is the claim of that name,
    nil when there is none; one more part on a pointer leads one level
    below what the pointer resolves to, into a map by key and into a list
    by index, and to nil where there is nothing to find: a missing key, a
    part that is no index, an index out of range, or a scalar or nil to
    descend from. *)
Theorem getClaim_total (coerceInt : string → option Z) (claim : string) (w : world) :
  (∃ v, (getClaim coerceInt claim w).1 = Returns v
     ∧ (HasPrefix claim "/" = false →
          v = default VNil (allClaimsOf w !! claim)
          ∧ (getClaim coerceInt claim w).2 = w)
     ∧ (HasPrefix claim "/" = true →
          match pointerstructure.Get coerceInt (VMap (allClaimsOf w)) claim with
          | inl val => v = val ∧ (getClaim coerceInt claim w).2 = w
          | inr err =>
              v = VNil
              ∧ (getClaim coerceInt claim w).2
                = World (allClaimsOf w) (logged w ++ [WarnUnableToLocate claim err])
          end))
  ∧ (∀ key, hasByte "/" key = false →
       (getClaim coerceInt (String "/" key) w).1
       = Returns (default VNil (allClaimsOf w !! pointerstructure.unescape key)))
  ∧ (∀ pointer key v,
       HasPrefix pointer "/" = true →
       hasByte "/" key = false →
       (getClaim coerceInt pointer w).1 = Returns v →
       (getClaim coerceInt (pointer +:+ String "/" key) w).1
       = Returns
           match v with
           | VMap m => default VNil (m !! pointerstructure.unescape key)
           | VSlice l =>
               match coerceInt (pointerstructure.unescape key) with
               | Some idx =>
                   if bool_decide (0 ≤ idx < Z.of_nat (length l))%Z
                   then default VNil (l !! Z.to_nat idx)
                   else VNil
               | None => VNil
               end
           | _ => VNil
           end).
Proof.
  split; [|split].
  - unfold getClaim, bind, readClaims, ret, loggerWarn; simpl.
    destruct (HasPrefix claim "/") eqn:Hpre; simpl.
    + destruct (pointerstructure.Get coerceInt _ claim) as [val|err] eqn:Hget; simpl.
      * exists val. repeat split; try done.
      * exists VNil. repeat split; try done.
    + eexists. repeat split; try done.
  - intros key Hkey.
    destruct (getClaim_run coerceInt (String "/" key) w) as [lg ->].
    cbn [fst]. f_equal. by apply claimOf_one_part.
  - intros pointer key v Hpre Hkey Hv.
    destruct (getClaim_run coerceInt pointer w) as [lg Hrun].
    rewrite Hrun in Hv. injection Hv as <-.
    destruct (getClaim_run coerceInt (pointer +:+ String "/" key) w) as [lg' ->].
    cbn [fst]. f_equal. by apply claimOf_one_more_part.
Qed.

(** C8: the claim set is the same map, with the same content, after a call
    of [getClaim], of [validateBoundClaims] or of [extractMetadata] as
    before it, whatever the call returns. *)
Theorem claims_never_mutated (coerceInt : string → option Z) `{MapRange} (w : world) :
  (∀ claim, allClaimsOf (getClaim coerceInt claim w).2 = allClaimsOf w)
  ∧ (∀ boundClaims,
       allClaimsOf (validateBoundClaims coerceInt boundClaims w).2 = allClaimsOf w)
  ∧ (∀ claimMappings,
       allClaimsOf (extractMetadata coerceInt claimMappings w).2 = allClaimsOf w).
Proof.
  split; [|split].
  - intros claim. by destruct (getClaim_run coerceInt claim w) as [lg ->].
  - intros boundClaims. apply validateBoundClaimsLoop_frame.
  - intros claimMappings. apply extractMetadataLoop_frame.
Qed.

(** ** The bound-claims validator *)

(** C1, as the code has it: [validateBoundClaims] succeeds exactly when
    every pair of [boundClaims] resolves, via [getClaim], to a value that is
    there and that [==] finds equal to the expected one (same dynamic type,
    so no coercion between float64 and json.Number). Otherwise the pairs
    visited before the first that does not pass leave no mark, and that
    first pair decides the error: claim-missing when its claim is absent,
    claim-mismatch when its value differs. Whatever error is returned names
    a configured pair with that defect. The check is conjunctive: dropping
    an entry keeps a success, and an entry that does not pass excludes it. *)
Theorem validateBoundClaims_first_failure (coerceInt : string → option Z)
    `{MapRange} (boundClaims : gmap string value) (w : world) :
  let allClaims := allClaimsOf w in
  let r := (validateBoundClaims coerceInt boundClaims w).1 in
  (r = Returns None
   ↔ ∀ claim expValue, boundClaims !! claim = Some expValue →
       boundClaimPasses coerceInt allClaims claim expValue)
  ∧ (∀ visited claim expValue rest,
       range boundClaims = visited ++ (claim, expValue) :: rest →
       Forall (λ '(c, e), boundClaimPasses coerceInt allClaims c e) visited →
       (boundClaimMissing coerceInt allClaims claim →
          r = Returns (Some (ErrClaimMissing claim)))
       ∧ (boundClaimMismatch coerceInt allClaims claim expValue →
          r = Returns (Some (ErrClaimMismatch claim))))
  ∧ (∀ err, r = Returns (Some err) →
       (∃ claim, err = ErrClaimMissing claim ∧ is_Some (boundClaims !! claim)
                 ∧ boundClaimMissing coerceInt allClaims claim)
       ∨ (∃ claim expValue, err = ErrClaimMismatch claim
                 ∧ boundClaims !! claim = Some expValue
                 ∧ boundClaimMismatch coerceInt allClaims claim expValue))
  ∧ (r = Returns None → ∀ claim,
       (validateBoundClaims coerceInt (delete claim boundClaims) w).1 = Returns None)
  ∧ (∀ claim expValue, boundClaims !! claim = Some expValue →
       ¬ boundClaimPasses coerceInt allClaims claim expValue → r ≠ Returns None).
Proof.
  intros allClaims r.
  assert (Hiff : ∀ bc : gmap string value,
    (validateBoundClaims coerceInt bc w).1 = Returns None
    ↔ ∀ claim expValue, bc !! claim = Some expValue →
        boundClaimPasses coerceInt allClaims claim expValue).
  { intros bc. unfold validateBoundClaims. rewrite loop_pass_iff.
    split; intros Hall c e Hin; apply Hall; by apply elem_of_range. }
  split; [apply Hiff|]. split; [|split; [|split]].
  - intros visited claim expValue rest Hrange Hall. subst r.
    unfold validateBoundClaims. rewrite Hrange. split; intros Hbad.
    + by apply loop_first_missing.
    + by apply loop_first_mismatch.
  - intros err Hr. apply loop_error_sound in Hr
      as [(c & e & Hin & -> & Hm)|(c & e & Hin & -> & Hm)];
      apply elem_of_range in Hin; [left|right].
    + exists c. by eauto.
    + exists c, e. by eauto.
  - intros Hr claim. apply Hiff. intros c e Hl.
    apply lookup_delete_Some in Hl as [_ Hl]. by apply (proj1 (Hiff boundClaims) Hr).
  - intros claim expValue Hl Hnot Hr. apply Hnot.
    by apply (proj1 (Hiff boundClaims) Hr).
Qed.

(** C1 as stated fails where two pairs fail in different ways: with claim
    "a" absent and claim "b" present with another value, one call returns
    one error. Visiting "a" first it is claim-missing, although the value
    of "b" differs; visiting "b" first it is claim-mismatch, although
    [getClaim] yields nil for "a". *)
Lemma validateBoundClaims_one_error_of_two :
  let boundClaims : gmap string value :=
    {[ "a" := VString "1"; "b" := VString "2" ]} in
  let w := World {[ "b" := VString "3" ]} [] in
  boundClaimMissing decimalIndex (allClaimsOf w) "a"
  ∧ boundClaimMismatch decimalIndex (allClaimsOf w) "b" (VString "2")
  ∧ (@validateBoundClaims decimalIndex ascendingRange boundClaims w).1
    = Returns (Some (ErrClaimMissing "a"))
  ∧ (@validateBoundClaims decimalIndex descendingRange boundClaims w).1
    = Returns (Some (ErrClaimMismatch "b")).
Proof.
  repeat split; try (vm_compute; reflexivity).
  vm_compute. discriminate.
Qed.

(** With scalars only on the side of the role, the comparison returns. *)
Lemma validateBoundClaims_returns_on_scalars (coerceInt : string → option Z)
    `{MapRange} (boundClaims : gmap string value) (w : world) :
  (∀ claim expValue, boundClaims !! claim = Some expValue → comparable expValue) →
  ∃ r, (validateBoundClaims coerceInt boundClaims w).1 = Returns r.
Proof.
  intros Hcmp. unfold validateBoundClaims.
  assert (Hall : ∀ c e, (c, e) ∈ range boundClaims → comparable e).
  { intros c e Hin. apply (Hcmp c). by apply elem_of_range. }
  clear Hcmp. revert w. induction (range boundClaims) as [|[c e] rest IH]; intros w.
  - by eexists.
  - destruct (loop_cons coerceInt c e rest w) as (w' & Hw' & ->).
    destruct (isNil _); [by eexists|].
    assert (Hc : comparable e) by (apply (Hall c), elem_of_cons; by left).
    destruct (ifaceEq e _) as [[]|p] eqn:Heq.
    + apply IH. intros c' e' Hin. apply (Hall c'), elem_of_cons. by right.
    + by eexists.
    + destruct e, (claimOf coerceInt (allClaimsOf w) c); simpl in *; done.
Qed.

(** C7, at the failing input: a role that binds the claim "groups" to the
    list ["admin"], and a token whose "groups" claim is that same list.
    [expValue != actValue] compares two []interface{} values and the call
    panics instead of returning. *)
Theorem validateBoundClaims_panics_on_lists (coerceInt : string → option Z)
    `{MapRange} :
  let groups := VSlice [VString "admin"] in
  (validateBoundClaims coerceInt {[ "groups" := groups ]}
     (World {[ "groups" := groups ]} [])).1
  = Panics (UncomparableType "[]interface {}").
Proof.
  intros groups. unfold validateBoundClaims. rewrite range_singleton.
  vm_compute. reflexivity.
Qed.

(** ** The metadata extractor *)

(** [extractMetadata] has no operation that can panic: it returns. *)
Lemma extractMetadata_returns (coerceInt : string → option Z) `{MapRange}
    (claimMappings : gmap string string) (w : world) :
  ∃ r, (extractMetadata coerceInt claimMappings w).1 = Returns r.
Proof.
  unfold extractMetadata. generalize (∅ : gmap string string). revert w.
  induction (range claimMappings) as [|[source target] rest IH]; intros w metadata.
  - by eexists.
  - destruct (emLoop_cons coerceInt source target rest metadata w) as (w' & _ & ->).
    destruct (claimOf _ _ _); try (by eexists); apply IH.
Qed.

(** With no assumption on the metadata keys: [extractMetadata] visits
    every mapping. When
    some mapped claim is there and is not a string, the call returns no
    map and an error that names such a path. Otherwise it returns a map and
    no error; a path whose claim is absent or null writes nothing; every
    entry of the map is the string some source path of that key resolves
    to; every key with a resolving source path is in the map, and holds
    that path's string whenever the source paths that share the key agree
    (when they do not, the last one visited wins). *)
Theorem extractMetadata_by_mapping (coerceInt : string → option Z) `{MapRange}
    (claimMappings : gmap string string) (w : world) :
  let allClaims := allClaimsOf w in
  let r := (extractMetadata coerceInt claimMappings w).1 in
  ((∃ source target, claimMappings !! source = Some target
                     ∧ notAString coerceInt allClaims source) →
   ∃ source, is_Some (claimMappings !! source)
             ∧ notAString coerceInt allClaims source
             ∧ r = Returns (None, Some (ErrConvert source)))
  ∧ ((∀ source target, claimMappings !! source = Some target →
        ¬ notAString coerceInt allClaims source) →
     ∃ metadata, r = Returns (Some metadata, None)
       ∧ (∀ target strValue, metadata !! target = Some strValue →
            ∃ source, claimMappings !! source = Some target
                      ∧ claimOf coerceInt allClaims source = VString strValue)
       ∧ (∀ source target strValue,
            claimMappings !! source = Some target →
            claimOf coerceInt allClaims source = VString strValue →
            is_Some (metadata !! target)
            ∧ ((∀ source' strValue',
                  claimMappings !! source' = Some target →
                  claimOf coerceInt allClaims source' = VString strValue' →
                  strValue' = strValue) →
               metadata !! target = Some strValue))).
Proof.
  intros allClaims r. subst r. unfold extractMetadata. split.
  - intros (source & target & Hl & Hbad).
    destruct (emLoop_error coerceInt (range claimMappings) ∅ w)
      as (s & t & Hin & Hs & Hr).
    { exists source, target. split; [by apply elem_of_range|done]. }
    exists s. apply elem_of_range in Hin. by eauto.
  - intros Hgood. eexists. split.
    { apply emLoop_ok. intros s t Hin. apply (Hgood s t). by apply elem_of_range. }
    split.
    + intros target strValue Hl.
      apply metadataWrites_inv in Hl as [Hl|(source & Hin & Hs)]; [done|].
      exists source. split; [by apply elem_of_range|done].
    + intros source target strValue Hl Hs. split.
      * apply metadataWrites_some. right. exists source, strValue.
        split; [by apply elem_of_range|done].
      * intros Hagree. apply metadataWrites_agree.
        -- right. exists source. split; [by apply elem_of_range|done].
        -- intros s' v' Hin. apply Hagree. by apply elem_of_range.
Qed.

(** Where two source paths are mapped to one key, "a" and "b" both to "k"
    and resolving to "1" and "2", the map returned holds one of the two
    under "k", the last one written. *)
Lemma extractMetadata_shared_target :
  let claimMappings : gmap string string := {[ "a" := "k"; "b" := "k" ]} in
  let w := World {[ "a" := VString "1"; "b" := VString "2" ]} [] in
  claimOf decimalIndex (allClaimsOf w) "a" = VString "1"
  ∧ claimOf decimalIndex (allClaimsOf w) "b" = VString "2"
  ∧ (@extractMetadata decimalIndex ascendingRange claimMappings w).1
    = Returns (Some {[ "k" := "2" ]}, None)
  ∧ (@extractMetadata decimalIndex descendingRange claimMappings w).1
    = Returns (Some {[ "k" := "1" ]}, None).
Proof. repeat split; vm_compute; reflexivity. Qed.



(** ** Null claims *)

(** C10: a claim that the claim set binds to null is, for every consumer,
    the claim left out. [getClaim] hands back the same value on both claim
    sets whatever key is asked for, nil for that claim itself, so
    [validateBoundClaims] and [extractMetadata] return the same on both; a
    role that binds the claim is answered claim-missing, and a mapping of
    the claim writes nothing. *)
Theorem null_claim_is_absent (coerceInt : string → option Z) `{MapRange}
    (allClaims : gmap string value) (k : string) (lg : list logEntry) :
  let withNull := World (<[k := VNil]> allClaims) lg in
  let without := World (delete k allClaims) lg in
  (∀ claim, ∃ v, (getClaim coerceInt claim withNull).1 = Returns v
                 ∧ (getClaim coerceInt claim without).1 = Returns v)
  ∧ (HasPrefix k "/" = false →
       (getClaim coerceInt k withNull).1 = Returns VNil)
  ∧ (∀ boundClaims,
       (validateBoundClaims coerceInt boundClaims withNull).1
       = (validateBoundClaims coerceInt boundClaims without).1)
  ∧ (∀ claimMappings,
       (extractMetadata coerceInt claimMappings withNull).1
       = (extractMetadata coerceInt claimMappings without).1)
  ∧ (HasPrefix k "/" = false → ∀ boundClaims,
       is_Some (boundClaims !! k) →
       (validateBoundClaims coerceInt boundClaims withNull).1 ≠ Returns None)
  ∧ (HasPrefix k "/" = false → ∀ expValue,
       (validateBoundClaims coerceInt {[ k := expValue ]} withNull).1
       = Returns (Some (ErrClaimMissing k)))
  ∧ (HasPrefix k "/" = false → ∀ target,
       (extractMetadata coerceInt {[ k := target ]} withNull).1
       = Returns (Some ∅, None)).
Proof.
  intros withNull without.
  assert (Hext : ∀ claim, claimOf coerceInt (allClaimsOf withNull) claim
                          = claimOf coerceInt (allClaimsOf without) claim).
  { intros claim. apply claimOf_null_absent. }
  assert (Hk : HasPrefix k "/" = false →
               claimOf coerceInt (allClaimsOf withNull) k = VNil).
  { intros Hpre. rewrite claimOf_unfold, Hpre. simpl. by rewrite lookup_insert_eq. }
  split; [|split; [|split; [|split; [|split; [|split]]]]].
  - intros claim. exists (claimOf coerceInt (allClaimsOf withNull) claim).
    destruct (getClaim_run coerceInt claim withNull) as [l1 ->].
    destruct (getClaim_run coerceInt claim without) as [l2 ->].
    split; [done|]. cbn [fst]. f_equal. symmetry. apply Hext.
  - intros Hpre. destruct (getClaim_run coerceInt k withNull) as [l1 ->].
    simpl. f_equal. by apply Hk.
  - intros boundClaims. by apply validateBoundClaimsLoop_ext.
  - intros claimMappings. by apply extractMetadataLoop_ext.
  - intros Hpre boundClaims [e He] Hr.
    unfold validateBoundClaims in Hr. rewrite loop_pass_iff in Hr.
    destruct (Hr k e) as [Hne _]; [by apply elem_of_range|].
    apply Hne. by apply Hk.
  - intros Hpre expValue. unfold validateBoundClaims. rewrite range_singleton.
    apply (loop_first_missing coerceInt [] [] k expValue withNull); [done|].
    by apply Hk.
  - intros Hpre target. unfold extractMetadata. rewrite range_singleton.
    destruct (emLoop_cons coerceInt k target [] ∅ withNull) as (w' & _ & ->).
    by rewrite (Hk Hpre).
Qed.

(** ** The audience validator *)

(** C2: [validateAudience] returns nil exactly when there are bound
    audiences and one of them is in the audience claim, or there are none
    and either [strict] is off or the audience claim is empty; in every
    other case it returns an error: audience-mismatch when the bound
    audiences and the claim share nothing, unexpected-audience when there
    is no bound audience, [strict] is on and the claim is not empty. With
    no bound audience and [strict] off it passes whatever the claim. *)
Theorem validateAudience_ok_iff (boundAudiences audClaim : list string)
    (strict : bool) :
  (validateAudience boundAudiences audClaim strict = None
   ↔ (boundAudiences ≠ [] ∧ ∃ v, v ∈ boundAudiences ∧ v ∈ audClaim)
     ∨ (boundAudiences = [] ∧ (strict = false ∨ audClaim = [])))
  ∧ (boundAudiences ≠ [] →
     (∀ v, v ∈ boundAudiences → v ∉ audClaim) →
     validateAudience boundAudiences audClaim strict = Some ErrAudienceMismatch)
  ∧ (audClaim ≠ [] →
     validateAudience [] audClaim true = Some ErrUnexpectedAudience)
  ∧ validateAudience [] audClaim false = None.
Proof.
  split; [|split; [|split]].
  - unfold validateAudience.
    destruct boundAudiences as [|b rest].
    + destruct strict, audClaim as [|a aud]; simpl; split; try done;
        try (intros _; right; split; [done|]; by eauto).
      intros [[Hne _]|[_ [Hs|Ha]]]; done.
    + rewrite andb_false_r.
      rewrite (bool_decide_eq_true_2 (0 < length (b :: rest))) by (simpl; lia).
      simpl length. cbn [andb].
      destruct (anyBoundAudience (b :: rest) audClaim) eqn:Hany.
      * apply anyBoundAudience_true in Hany. split; [|done].
        intros _. left. by split.
      * split; [done|]. intros [[_ Hex]|[Hnil _]]; [|done].
        apply anyBoundAudience_true in Hex. congruence.
  - intros Hne Hdisj. unfold validateAudience.
    destruct boundAudiences as [|b rest]; [done|].
    rewrite andb_false_r.
    rewrite (bool_decide_eq_true_2 (0 < length (b :: rest))) by (simpl; lia).
    destruct (anyBoundAudience (b :: rest) audClaim) eqn:Hany; [|done].
    apply anyBoundAudience_true in Hany as (v & Hin & Haud).
    by destruct (Hdisj v Hin).
  - by destruct audClaim.
  - done.
Qed.

(** ** The group validator *)

(** C6: [validateGroups] passes on every input when [boundGroups] is
    empty; it passes exactly when every name of [boundGroups] is the name
    of some alias; and when it fails, its one error carries all the bound
    names that no alias has, each once. *)
Theorem validateGroups_all_missing `{MapRange} (boundGroups : list string)
    (groupAliases : list Alias) :
  validateGroups [] groupAliases = None
  ∧ (validateGroups boundGroups groupAliases = None
     ↔ ∀ g, g ∈ boundGroups → g ∈ Name <$> groupAliases)
  ∧ (∀ err, validateGroups boundGroups groupAliases = Some err →
       ∃ groupsMissing, err = ErrMissingGroups groupsMissing
         ∧ NoDup groupsMissing
         ∧ ∀ g, g ∈ groupsMissing
                ↔ g ∈ boundGroups ∧ g ∉ Name <$> groupAliases).
Proof.
  split; [done|].
  set (groupFound := markAliases (setGroups boundGroups) groupAliases).
  assert (Hmiss : ∀ g, g ∈ collectMissing (range groupFound)
                       ↔ g ∈ boundGroups ∧ g ∉ Name <$> groupAliases).
  { intros g. rewrite collectMissing_range. unfold groupFound.
    rewrite markAliases_lookup.
    destruct (setGroups_lookup boundGroups g) as [Hin Hout].
    destruct (decide (g ∈ boundGroups)) as [Hg|Hg].
    - rewrite (Hin Hg). simpl. case_bool_decide as Ha; split; try done.
      + by intros [_ ?].
    - rewrite (Hout Hg). simpl. split; [done|]. by intros [? _]. }
  unfold validateGroups. fold groupFound.
  destruct boundGroups as [|b rest] eqn:Hb.
  { simpl. split; [|done]. split; [|done]. intros _ g Hg. by apply elem_of_nil in Hg. }
  rewrite <- Hb in *.
  rewrite (bool_decide_eq_false_2 (length boundGroups = 0)) by (by rewrite Hb).
  cbv zeta. case_bool_decide as Hlen.
  - split.
    + split; [done|]. intros Hall.
      destruct (collectMissing (range groupFound)) as [|g ms] eqn:Hc;
        [simpl in Hlen; lia|].
      destruct (proj1 (Hmiss g)) as [Hg Hng]; [apply elem_of_cons; by left|].
      destruct Hng. by apply Hall.
    + intros err [= <-]. eexists. split; [done|].
      split; [apply collectMissing_NoDup|done].
  - split; [|done]. split; [|done]. intros _ g Hg.
    destruct (decide (g ∈ Name <$> groupAliases)) as [|Hng]; [done|].
    assert (Hin : g ∈ collectMissing (range groupFound)) by by apply Hmiss.
    destruct (collectMissing (range groupFound)); [by apply elem_of_nil in Hin|].
    simpl in Hlen. lia.
Qed.

(** ** The directory lookup *)

(** C9: with the impersonated user or the service-account key left empty,
    [googleGroupsPerUser] returns an empty list of groups and no error for
    every user key, whatever the directory would answer, and sends it no
    request. *)
Theorem googleGroupsPerUser_unconfigured (Group : Type)
    (JWTConfigFromJSON adminNew : string → option string)
    (directoryDo : GoogleGroups.request → GoogleGroups.page Group + string)
    (fuel : nat) (cfg : GoogleGroups.jwtConfig) (userKey : string)
    (sent : list GoogleGroups.request) :
  GoogleGroups.GoogleDirectoryImpersonateUser cfg = ""
  ∨ GoogleGroups.GoogleDirectoryServiceAccountKey cfg = "" →
  GoogleGroups.googleGroupsPerUser Group JWTConfigFromJSON adminNew directoryDo
    fuel (Some cfg) userKey sent
  = Some (Returns ([], None), sent).
Proof.
  intros Hunset. unfold GoogleGroups.googleGroupsPerUser.
  destruct Hunset as [-> | ->]; simpl; [done|].
  by rewrite orb_true_r.
Qed.

Lemma googleGroupsPerUser_unconfigured_witness :
  let cfg := {| GoogleGroups.GoogleDirectoryServiceAccountKey := "";
                GoogleGroups.GoogleDirectoryImpersonateUser := "admin@example.com" |} in
  let directoryDo := λ _ : GoogleGroups.request,
    inl (GoogleGroups.Page string ["staff"] "") : GoogleGroups.page string + string in
  (GoogleGroups.GoogleDirectoryImpersonateUser cfg = ""
   ∨ GoogleGroups.GoogleDirectoryServiceAccountKey cfg = "")
  ∧ GoogleGroups.googleGroupsPerUser string (λ _, None) (λ _, None) directoryDo
      0 (Some cfg) "bob@example.com" []
    = Some (Returns ([], None), []).
Proof.
  intros cfg directoryDo.
  assert (Hunset : GoogleGroups.GoogleDirectoryImpersonateUser cfg = ""
                   ∨ GoogleGroups.GoogleDirectoryServiceAccountKey cfg = "")
    by (right; reflexivity).
  split; [exact Hunset|].
  exact (googleGroupsPerUser_unconfigured string (λ _, None) (λ _, None)
           directoryDo 0 cfg "bob@example.com" [] Hunset).
Defined.

(** ** The redirect allow-list *)


(** The allow-list of §4.6 misses the four loopback rows of the test, and
    only those. *)
Lemma isAllowed_fails_loopback_rows :
  Redirect.failingRows Redirect.isAllowed
  = [ ("https://localhost:9000", ["a"; "b"; "https://localhost:5000"], true);
      ("https://127.0.0.1:9000", ["a"; "b"; "https://127.0.0.1:5000"], true);
      ("https://[::1]:9000", ["a"; "b"; "https://[::1]:5000"], true);
      ("https://[::1]:9000/x/y?r=42",
       ["a"; "b"; "https://[::1]:5000/x/y?r=42"], true) ].
Proof. vm_compute; reflexivity. Qed.




(** ** The scenario of the specification, run on the model *)

(** A role with bound_audiences ["vault"], claim_mappings COLOR to color
    and bound_claims sk = "42", against the claims the provider returns. *)
Example scenario_login_succeeds :
  let allClaims : gmap string value :=
    {[ "email" := VString "bob@x.com"; "COLOR" := VString "green";
       "sk" := VString "42"; "aud" := VSlice [VString "vault"] ]} in
  let w := World allClaims [] in
  validateAudience ["vault"] ["vault"] true = None
  ∧ (@validateBoundClaims decimalIndex ascendingRange {[ "sk" := VString "42" ]} w).1
    = Returns None
  ∧ (@extractMetadata decimalIndex ascendingRange {[ "COLOR" := "color" ]} w).1
    = Returns (Some {[ "color" := "green" ]}, None).
Proof. repeat split; vm_compute; reflexivity. Qed.

Example scenario_wrong_sk :
  let allClaims : gmap string value :=
    {[ "email" := VString "bob@x.com"; "COLOR" := VString "green";
       "sk" := VString "43"; "aud" := VSlice [VString "vault"] ]} in
  (@validateBoundClaims decimalIndex ascendingRange {[ "sk" := VString "42" ]}
     (World allClaims [])).1
  = Returns (Some (ErrClaimMismatch "sk")).
Proof. vm_compute; reflexivity. Qed.

(** No coercion between the float64 of a token and the json.Number of a
    role: the dynamic types differ, so [==] is false. *)
Example number_against_float :
  (@validateBoundClaims decimalIndex ascendingRange {[ "n" := VNumber "42" ]}
     (World {[ "n" := VFloat64 42%float ]} [])).1
  = Returns (Some (ErrClaimMismatch "n")).
Proof. vm_compute; reflexivity. Qed.

(** A structured path walks maps by key and lists by index; a path that
    leads nowhere is logged and answered with nil. *)
Example pointer_into_the_claim_tree :
  let allClaims : gmap string value :=
    {[ "org" := VMap {[ "teams" := VSlice [VString "dev"; VString "ops"] ]} ]} in
  let w := World allClaims [] in
  getClaim decimalIndex "/org/teams/1" w = (Returns (VString "ops"), w)
  ∧ getClaim decimalIndex "/org/teams/2" w
    = (Returns VNil,
       World allClaims
         [WarnUnableToLocate "/org/teams/2" (pointerstructure.ErrOutOfRange 2 2 2)])
  ∧ getClaim decimalIndex "/org/name" w
    = (Returns VNil,
       World allClaims
         [WarnUnableToLocate "/org/name" (pointerstructure.ErrNoKey 1 "name")])
  ∧ getClaim decimalIndex "org/teams" w = (Returns VNil, w).
Proof. repeat split; vm_compute; reflexivity. Qed.

(** Two groups missing, both reported. *)
Example both_missing_groups_reported :
  @validateGroups ascendingRange ["dev"; "ops"; "admin"] [ {| Name := "ops" |} ]
  = Some (ErrMissingGroups ["admin"; "dev"]).
Proof. vm_compute; reflexivity. Qed.

(** * Further properties *)

(** ** Pointers into the claim tree *)

(** X1: every top-level claim, whatever bytes its name holds, is reached by
    the pointer made of "/" and the escaped name (RFC 6901: ~0 for "~", ~1
    for "/"); an absent claim gives nil. *)
Theorem getClaim_pointer_reaches_every_key (coerceInt : string → option Z)
    (key : string) (w : world) :
  (getClaim coerceInt (String "/" (escape key)) w).1
  = Returns (default VNil (allClaimsOf w !! key)).
Proof.
  destruct (getClaim_run coerceInt (String "/" (escape key)) w) as [lg Hrun].
  rewrite Hrun. cbn [fst]. f_equal.
  apply claimOf_escaped_key.
Qed.

(** X2: a claim name free of "/" and "~" names the same claim with and
    without a leading "/": both ways of writing it give [getClaim] the
    same value. *)
Theorem getClaim_plain_name_or_pointer (coerceInt : string → option Z)
    (key : string) (w : world) :
  hasByte "/" key = false →
  hasByte "~" key = false →
  (getClaim coerceInt (String "/" key) w).1 = (getClaim coerceInt key w).1.
Proof.
  intros Hslash Htilde.
  destruct (getClaim_run coerceInt (String "/" key) w) as [lg1 ->].
  destruct (getClaim_run coerceInt key w) as [lg2 ->].
  cbn [fst]. f_equal.
  rewrite <- (escape_plain key Hslash Htilde) at 1.
  by rewrite claimOf_escaped_key, claimOf_plain_key.
Qed.

Lemma getClaim_plain_name_or_pointer_witness :
  let w := World {[ "email" := VString "bob@example.com" ]} [] in
  hasByte "/" "email" = false
  ∧ hasByte "~" "email" = false
  ∧ (getClaim decimalIndex "/email" w).1 = (getClaim decimalIndex "email" w).1.
Proof.
  intros w.
  assert (Hslash : hasByte "/" "email" = false) by reflexivity.
  assert (Htilde : hasByte "~" "email" = false) by reflexivity.
  split; [exact Hslash|]. split; [exact Htilde|].
  exact (getClaim_plain_name_or_pointer decimalIndex "email" w Hslash Htilde).
Defined.

(** X3: one more part on a pointer walks one level down from the value
    the pointer resolves to: into a map by key (nil when the key is not
    there), into a list by index (nil when the part is no index or the
    index is out of range), and to nil from anything else. *)
Theorem getClaim_descends_one_part (coerceInt : string → option Z)
    (pointer key : string) (v : value) (w : world) :
  pointerstructure.Get coerceInt (VMap (allClaimsOf w)) pointer = inl v →
  hasByte "/" key = false →
  (getClaim coerceInt (pointer +:+ String "/" key) w).1
  = Returns
      match v with
      | VMap m => default VNil (m !! pointerstructure.unescape key)
      | VSlice l =>
          match coerceInt (pointerstructure.unescape key) with
          | Some idx =>
              if bool_decide (0 ≤ idx < Z.of_nat (length l))%Z
              then default VNil (l !! Z.to_nat idx)
              else VNil
          | None => VNil
          end
      | _ => VNil
      end.
Proof.
  intros Hget Hkey.
  destruct (getClaim_run coerceInt (pointer +:+ String "/" key) w) as [lg ->].
  cbn [fst]. f_equal. rewrite claimOf_unfold.
  unfold pointerstructure.Get in *.
  destruct (pointerstructure.Parse pointer) as [parts|err] eqn:Hparse; [|done].
  assert (Hpre : HasPrefix (pointer +:+ String "/" key) "/" = true).
  { rewrite prefix_slash. destruct pointer as [|c rest]; [done|].
    simpl in *. by destruct (Ascii.eqb c "/"). }
  rewrite Hpre, (Parse_snoc pointer key parts Hparse Hkey), getParts_app, Hget.
  cbn [negb pointerstructure.getParts].
  destruct v; try done.
  - destruct (coerceInt _) as [idx|]; [|done].
    repeat case_bool_decide; try lia; try done.
    by destruct (l !! Z.to_nat idx).
  - by destruct (m !! _).
Qed.

Lemma getClaim_descends_one_part_witness :
  let teams := VSlice [VString "dev"; VString "ops"] in
  let w := World {[ "org" := VMap {[ "teams" := teams ]} ]} [] in
  pointerstructure.Get decimalIndex (VMap (allClaimsOf w)) "/org/teams" = inl teams
  ∧ hasByte "/" "1" = false
  ∧ (getClaim decimalIndex "/org/teams/1" w).1 = Returns (VString "ops").
Proof.
  intros teams w.
  assert (Hget : pointerstructure.Get decimalIndex (VMap (allClaimsOf w)) "/org/teams"
                 = inl teams) by (vm_compute; reflexivity).
  assert (Hkey : hasByte "/" "1" = false) by reflexivity.
  split; [exact Hget|]. split; [exact Hkey|].
  exact (getClaim_descends_one_part decimalIndex "/org/teams" "1" teams w Hget Hkey).
Defined.

(** ** More on the bound-claims validator *)

Lemma loop_panic_sound (coerceInt : string → option Z)
    (entries : list (string * value)) (w : world) (p : panic) :
  (validateBoundClaimsLoop coerceInt entries w).1 = Panics p →
  ∃ claim expValue, (claim, expValue) ∈ entries
    ∧ claimOf coerceInt (allClaimsOf w) claim ≠ VNil
    ∧ ifaceEq expValue (claimOf coerceInt (allClaimsOf w) claim) = Panics p.
Proof.
  revert w. induction entries as [|[claim expValue] rest IH]; intros w; [done|].
  destruct (loop_cons coerceInt claim expValue rest w) as (w' & Hw' & ->).
  destruct (isNil _) eqn:Hnil; [done|]. apply isNil_false in Hnil.
  destruct (ifaceEq _ _) as [[]|q] eqn:Heq; cbn [fst].
  - intros Hr. rewrite <- Hw'. destruct (IH _ Hr) as (c & e & Hin & Hne & Hp).
    exists c, e. split; [apply elem_of_cons; by right|done].
  - done.
  - intros [= ->]. exists claim, expValue. split; [apply elem_of_cons; by left|done].
Qed.

Lemma ifaceEq_panics (x y : value) (p : panic) :
  ifaceEq x y = Panics p →
  (∃ l l', x = VSlice l ∧ y = VSlice l')
  ∨ (∃ m m', x = VMap m ∧ y = VMap m').
Proof. destruct x, y; simpl; try done; intros _; [left|right]; by eauto. Qed.

(** X4: whether [validateBoundClaims] accepts does not depend on the order
    in which [range] visits the bound claims. *)
Theorem validateBoundClaims_verdict_order_free (coerceInt : string → option Z)
    (R1 R2 : MapRange) (boundClaims : gmap string value) (w : world) :
  (@validateBoundClaims coerceInt R1 boundClaims w).1 = Returns None
  ↔ (@validateBoundClaims coerceInt R2 boundClaims w).1 = Returns None.
Proof.
  unfold validateBoundClaims. rewrite !loop_pass_iff.
  split; intros Hall c e Hin; apply Hall.
  - apply (@elem_of_range R1). by apply (@elem_of_range R2) in Hin.
  - apply (@elem_of_range R2). by apply (@elem_of_range R1) in Hin.
Qed.

(** X5: a panic of [validateBoundClaims] always comes from one configured
    pair whose claim is there and whose expected and resolved values are
    both lists or both maps. *)
Theorem validateBoundClaims_panic_source (coerceInt : string → option Z)
    `{MapRange} (boundClaims : gmap string value) (w : world) (p : panic) :
  (validateBoundClaims coerceInt boundClaims w).1 = Panics p →
  ∃ claim expValue,
    boundClaims !! claim = Some expValue
    ∧ ((∃ l l', expValue = VSlice l
                ∧ claimOf coerceInt (allClaimsOf w) claim = VSlice l')
       ∨ (∃ m m', expValue = VMap m
                  ∧ claimOf coerceInt (allClaimsOf w) claim = VMap m')).
Proof.
  intros Hr. apply loop_panic_sound in Hr as (c & e & Hin & _ & Hp).
  exists c, e. split; [by apply elem_of_range|]. by apply ifaceEq_panics in Hp.
Qed.

Lemma validateBoundClaims_panic_source_witness :
  let groups := VSlice [VString "admin"] in
  let boundClaims : gmap string value := {[ "groups" := groups ]} in
  let w := World {[ "groups" := groups ]} [] in
  (@validateBoundClaims decimalIndex ascendingRange boundClaims w).1
  = Panics (UncomparableType "[]interface {}")
  ∧ ∃ claim expValue,
      boundClaims !! claim = Some expValue
      ∧ ((∃ l l', expValue = VSlice l
                  ∧ claimOf decimalIndex (allClaimsOf w) claim = VSlice l')
         ∨ (∃ m m', expValue = VMap m
                    ∧ claimOf decimalIndex (allClaimsOf w) claim = VMap m')).
Proof.
  intros groups boundClaims w.
  assert (Hr : (@validateBoundClaims decimalIndex ascendingRange boundClaims w).1
               = Panics (UncomparableType "[]interface {}"))
    by (vm_compute; reflexivity).
  split; [exact Hr|].
  exact (@validateBoundClaims_panic_source decimalIndex ascendingRange
           boundClaims w _ Hr).
Defined.

(** X6: a role that binds a claim to null, to a list or to an object is
    never satisfied: whatever the token holds, [validateBoundClaims] does
    not succeed. *)
Theorem validateBoundClaims_unmatchable_value (coerceInt : string → option Z)
    `{MapRange} (boundClaims : gmap string value) (w : world)
    (claim : string) (expValue : value) :
  boundClaims !! claim = Some expValue →
  expValue = VNil ∨ ¬ comparable expValue →
  (validateBoundClaims coerceInt boundClaims w).1 ≠ Returns None.
Proof.
  intros Hl Hbad Hr. unfold validateBoundClaims in Hr. rewrite loop_pass_iff in Hr.
  destruct (Hr claim expValue) as [Hne Heq]; [by apply elem_of_range|].
  destruct Hbad as [-> | Hnc].
  - by destruct (claimOf coerceInt (allClaimsOf w) claim).
  - by destruct expValue, (claimOf coerceInt (allClaimsOf w) claim).
Qed.

Lemma validateBoundClaims_unmatchable_value_witness :
  let boundClaims : gmap string value := {[ "role" := VNil ]} in
  let w := World {[ "role" := VString "admin" ]} [] in
  boundClaims !! "role" = Some VNil
  ∧ (VNil = VNil ∨ ¬ comparable VNil)
  ∧ (@validateBoundClaims decimalIndex ascendingRange boundClaims w).1
    ≠ Returns None.
Proof.
  intros boundClaims w.
  assert (Hl : boundClaims !! "role" = Some VNil) by (vm_compute; reflexivity).
  assert (Hbad : VNil = VNil ∨ ¬ comparable VNil) by (left; reflexivity).
  split; [exact Hl|]. split; [exact Hbad|].
  exact (@validateBoundClaims_unmatchable_value decimalIndex ascendingRange
           boundClaims w "role" VNil Hl Hbad).
Defined.

(** X7: the mismatch the comment in [getClaim] warns of: a number bound in
    the role is a json.Number, a number in the token is a float64, and the
    two never compare equal, whatever their values. *)
Theorem validateBoundClaims_number_against_float64
    (coerceInt : string → option Z) `{MapRange}
    (boundClaims : gmap string value) (w : world) (claim n : string) (f : float) :
  boundClaims !! claim = Some (VNumber n) →
  (getClaim coerceInt claim w).1 = Returns (VFloat64 f) →
  (validateBoundClaims coerceInt boundClaims w).1 ≠ Returns None.
Proof.
  intros Hl Hact Hr. unfold validateBoundClaims in Hr. rewrite loop_pass_iff in Hr.
  destruct (Hr claim (VNumber n)) as [_ Heq]; [by apply elem_of_range|].
  destruct (getClaim_run coerceInt claim w) as [lg Hrun]. rewrite Hrun in Hact.
  injection Hact as Hact. by rewrite Hact in Heq.
Qed.

Lemma validateBoundClaims_number_against_float64_witness :
  let boundClaims : gmap string value := {[ "level" := VNumber "3" ]} in
  let w := World {[ "level" := VFloat64 3%float ]} [] in
  boundClaims !! "level" = Some (VNumber "3")
  ∧ (getClaim decimalIndex "level" w).1 = Returns (VFloat64 3%float)
  ∧ (@validateBoundClaims decimalIndex ascendingRange boundClaims w).1
    ≠ Returns None.
Proof.
  intros boundClaims w.
  assert (Hl : boundClaims !! "level" = Some (VNumber "3"))
    by (vm_compute; reflexivity).
  assert (Hact : (getClaim decimalIndex "level" w).1 = Returns (VFloat64 3%float))
    by (vm_compute; reflexivity).
  split; [exact Hl|]. split; [exact Hact|].
  exact (@validateBoundClaims_number_against_float64 decimalIndex ascendingRange
           boundClaims w "level" "3" 3%float Hl Hact).
Defined.

Lemma getClaim_plain_silent (coerceInt : string → option Z)
    (claim : string) (w : world) :
  HasPrefix claim "/" = false → (getClaim coerceInt claim w).2 = w.
Proof.
  intros Hpre. unfold getClaim, bind, readClaims, ret. simpl. by rewrite Hpre.
Qed.

(** X8: only pointers are logged. When no bound claim and no mapped claim
    is written with a leading "/", [validateBoundClaims] and
    [extractMetadata] leave the logger as they found it, also when claims
    are missing. *)
Theorem plain_claims_are_never_logged (coerceInt : string → option Z)
    `{MapRange} (boundClaims : gmap string value)
    (claimMappings : gmap string string) (w : world) :
  (∀ claim, is_Some (boundClaims !! claim) → HasPrefix claim "/" = false) →
  (∀ source, is_Some (claimMappings !! source) → HasPrefix source "/" = false) →
  (validateBoundClaims coerceInt boundClaims w).2 = w
  ∧ (extractMetadata coerceInt claimMappings w).2 = w.
Proof.
  intros Hbc Hcm. split.
  - unfold validateBoundClaims.
    assert (Hall : ∀ c e, (c, e) ∈ range boundClaims → HasPrefix c "/" = false).
    { intros c e Hin. apply Hbc. exists e. by apply elem_of_range. }
    clear Hbc. induction (range boundClaims) as [|[c e] rest IH]; [done|].
    simpl. unfold bind at 1.
    pose proof (getClaim_plain_silent coerceInt c w) as Hs.
    destruct (getClaim coerceInt c w) as [[v|p] w'] eqn:Hg; simpl in Hs;
      rewrite Hs by (apply (Hall c e), elem_of_cons; by left); [|done].
    destruct (isNil v); [done|]. unfold bind, liftOutcome.
    destruct (ifaceEq e v) as [[]|p]; simpl; try done.
    apply IH. intros c' e' Hin. apply (Hall c' e'), elem_of_cons. by right.
  - unfold extractMetadata.
    assert (Hall : ∀ s t, (s, t) ∈ range claimMappings → HasPrefix s "/" = false).
    { intros s t Hin. apply Hcm. exists t. by apply elem_of_range. }
    clear Hcm. generalize (∅ : gmap string string).
    induction (range claimMappings) as [|[s t] rest IH]; intros metadata; [done|].
    simpl. unfold bind at 1.
    pose proof (getClaim_plain_silent coerceInt s w) as Hs.
    destruct (getClaim coerceInt s w) as [[v|p] w'] eqn:Hg; simpl in Hs;
      rewrite Hs by (apply (Hall s t), elem_of_cons; by left); [|done].
    assert (Hrest : ∀ s' t', (s', t') ∈ rest → HasPrefix s' "/" = false).
    { intros s' t' Hin. apply (Hall s' t'), elem_of_cons. by right. }
    destruct v; try done; by apply IH.
Qed.

Lemma plain_claims_are_never_logged_witness :
  let boundClaims : gmap string value := {[ "sk" := VString "42" ]} in
  let claimMappings : gmap string string := {[ "COLOR" := "color" ]} in
  let w := World {[ "email" := VString "bob@example.com" ]} [] in
  (∀ claim, is_Some (boundClaims !! claim) → HasPrefix claim "/" = false)
  ∧ (∀ source, is_Some (claimMappings !! source) → HasPrefix source "/" = false)
  ∧ (@validateBoundClaims decimalIndex ascendingRange boundClaims w).2 = w
  ∧ (@extractMetadata decimalIndex ascendingRange claimMappings w).2 = w.
Proof.
  intros boundClaims claimMappings w.
  assert (Hbc : ∀ claim, is_Some (boundClaims !! claim) → HasPrefix claim "/" = false).
  { intros claim [e He]. apply lookup_singleton_Some in He as [<- _]. reflexivity. }
  assert (Hcm : ∀ source, is_Some (claimMappings !! source)
                          → HasPrefix source "/" = false).
  { intros source [t Ht]. apply lookup_singleton_Some in Ht as [<- _]. reflexivity. }
  split; [exact Hbc|]. split; [exact Hcm|].
  exact (@plain_claims_are_never_logged decimalIndex ascendingRange
           boundClaims claimMappings w Hbc Hcm).
Defined.

(** ** What the validator reads of the token *)

(** X9: whether [validateBoundClaims] accepts depends on the token only
    through the values [getClaim] hands back for the bound claims: two
    claim sets that resolve every bound claim alike are both accepted or
    both not, whatever else they hold, whatever was logged before and
    whatever the orders in which the two calls visit the bound claims; and
    an error returned on the one names a defect that the other has too. *)
Theorem validateBoundClaims_reads_bound_claims_only
    (coerceInt : string → option Z) (R1 R2 : MapRange)
    (boundClaims : gmap string value) (w1 w2 : world) :
  (∀ claim, is_Some (boundClaims !! claim) →
     (getClaim coerceInt claim w1).1 = (getClaim coerceInt claim w2).1) →
  ((@validateBoundClaims coerceInt R1 boundClaims w1).1 = Returns None
   ↔ (@validateBoundClaims coerceInt R2 boundClaims w2).1 = Returns None)
  ∧ (∀ err,
       (@validateBoundClaims coerceInt R1 boundClaims w1).1 = Returns (Some err) →
       (∃ claim, err = ErrClaimMissing claim
                 ∧ is_Some (boundClaims !! claim)
                 ∧ boundClaimMissing coerceInt (allClaimsOf w2) claim)
       ∨ (∃ claim expValue, err = ErrClaimMismatch claim
                 ∧ boundClaims !! claim = Some expValue
                 ∧ boundClaimMismatch coerceInt (allClaimsOf w2) claim expValue)).
Proof.
  intros Hsame.
  assert (Hall : ∀ c, is_Some (boundClaims !! c) →
            claimOf coerceInt (allClaimsOf w1) c = claimOf coerceInt (allClaimsOf w2) c).
  { intros c Hc. specialize (Hsame c Hc).
    destruct (getClaim_run coerceInt c w1) as [l1 H1].
    destruct (getClaim_run coerceInt c w2) as [l2 H2].
    rewrite H1, H2 in Hsame. by injection Hsame. }
  split.
  - unfold validateBoundClaims. rewrite !loop_pass_iff. unfold boundClaimPasses.
    split; intros Hpass c e Hin.
    + apply (@elem_of_range R2) in Hin. rewrite <- (Hall c) by by eexists.
      apply Hpass. by apply (@elem_of_range R1).
    + apply (@elem_of_range R1) in Hin. rewrite (Hall c) by by eexists.
      apply Hpass. by apply (@elem_of_range R2).
  - intros err Hr. unfold validateBoundClaims in Hr.
    apply loop_error_sound in Hr
      as [(c & e & Hin & -> & Hm)|(c & e & Hin & -> & Hm)];
      apply (@elem_of_range R1) in Hin; [left|right].
    + exists c. split; [done|]. split; [by eexists|].
      unfold boundClaimMissing in *. by rewrite <- (Hall c) by by eexists.
    + exists c, e. split; [done|]. split; [done|].
      unfold boundClaimMismatch in *. by rewrite <- (Hall c) by by eexists.
Qed.

Lemma validateBoundClaims_reads_bound_claims_only_witness :
  let boundClaims : gmap string value :=
    {[ "sk" := VString "42"; "password" := VString "foo" ]} in
  let w1 := World {[ "sk" := VString "43" ]} [] in
  let w2 := World {[ "sk" := VString "43"; "email" := VString "bob@example.com" ]}
              [WarnUnableToLocate "/x" (pointerstructure.ErrNoKey 0 "x")] in
  (∀ claim, is_Some (boundClaims !! claim) →
     (getClaim decimalIndex claim w1).1 = (getClaim decimalIndex claim w2).1)
  ∧ ((@validateBoundClaims decimalIndex ascendingRange boundClaims w1).1
     = Returns None
     ↔ (@validateBoundClaims decimalIndex descendingRange boundClaims w2).1
       = Returns None)
  ∧ (@validateBoundClaims decimalIndex ascendingRange boundClaims w1).1
    = Returns (Some (ErrClaimMismatch "sk"))
  ∧ (@validateBoundClaims decimalIndex descendingRange boundClaims w2).1
    = Returns (Some (ErrClaimMissing "password")).
Proof.
  intros boundClaims w1 w2.
  assert (Hsame : ∀ claim, is_Some (boundClaims !! claim) →
            (getClaim decimalIndex claim w1).1 = (getClaim decimalIndex claim w2).1).
  { intros claim [e He]. unfold boundClaims in He.
    apply lookup_insert_Some in He as [[<- _]|[_ He]]; [vm_compute; reflexivity|].
    apply lookup_singleton_Some in He as [<- _]. vm_compute; reflexivity. }
  split; [exact Hsame|]. split.
  - exact (proj1 (validateBoundClaims_reads_bound_claims_only decimalIndex
                    ascendingRange descendingRange boundClaims w1 w2 Hsame)).
  - split; vm_compute; reflexivity.
Defined.

(** ** More on the metadata extractor *)

(** X10: [extractMetadata] returns either a map and no error, or no map
    and the conversion error of a mapped claim that is there and is not a
    string; never both, never neither, and it never panics. *)
Theorem extractMetadata_map_or_error (coerceInt : string → option Z) `{MapRange}
    (claimMappings : gmap string string) (w : world) :
  (∃ metadata,
     (extractMetadata coerceInt claimMappings w).1 = Returns (Some metadata, None))
  ∨ (∃ source,
       (extractMetadata coerceInt claimMappings w).1
       = Returns (None, Some (ErrConvert source))
       ∧ is_Some (claimMappings !! source)
       ∧ notAString coerceInt (allClaimsOf w) source).
Proof.
  unfold extractMetadata.
  assert (Hcases :
    (∃ source target, (source, target) ∈ range claimMappings
                      ∧ notAString coerceInt (allClaimsOf w) source)
    ∨ ∀ source target, (source, target) ∈ range claimMappings →
        ¬ notAString coerceInt (allClaimsOf w) source).
  { induction (range claimMappings) as [|[s t] rest IH].
    - right. intros s t Hin. by apply elem_of_nil in Hin.
    - destruct (notAString_dec coerceInt (allClaimsOf w) s) as [Hbad|Hgood].
      + left. exists s, t. split; [apply elem_of_cons; by left|done].
      + destruct IH as [(s' & t' & Hin & Hbad)|Hall].
        * left. exists s', t'. split; [apply elem_of_cons; by right|done].
        * right. intros s' t' [[= -> ->]|Hin]%elem_of_cons; [|by eapply Hall].
          intros [Hne Hns]. destruct Hgood as [?|[v Hv]]; [done|]. by destruct (Hns v). }
  destruct Hcases as [Hbad|Hgood].
  - right. destruct (emLoop_error coerceInt _ ∅ w Hbad) as (s & t & Hin & Hs & Hr).
    exists s. split; [done|]. split; [|done]. exists t. by apply elem_of_range.
  - left. eexists. by apply emLoop_ok.
Qed.

(** X11: when every mapped claim is absent, null or a string, and the
    source paths that share a metadata key resolve to the same string, the
    map returned does not depend on the order in which [range] visits the
    mappings. *)
Theorem extractMetadata_order_free (coerceInt : string → option Z)
    (R1 R2 : MapRange) (claimMappings : gmap string string) (w : world) :
  (∀ source target, claimMappings !! source = Some target →
     ¬ notAString coerceInt (allClaimsOf w) source) →
  (∀ source1 source2 target strValue1 strValue2,
     claimMappings !! source1 = Some target →
     claimMappings !! source2 = Some target →
     claimOf coerceInt (allClaimsOf w) source1 = VString strValue1 →
     claimOf coerceInt (allClaimsOf w) source2 = VString strValue2 →
     strValue1 = strValue2) →
  (@extractMetadata coerceInt R1 claimMappings w).1
  = (@extractMetadata coerceInt R2 claimMappings w).1.
Proof.
  intros Hgood Hagree. unfold extractMetadata.
  rewrite !emLoop_ok.
  2:{ intros s t Hin. apply (Hgood s t). by apply (@elem_of_range R2). }
  2:{ intros s t Hin. apply (Hgood s t). by apply (@elem_of_range R1). }
  do 3 f_equal. apply map_eq. intros target.
  assert (Hone : ∀ R : MapRange,
    metadataWrites coerceInt (allClaimsOf w) (@range R _ claimMappings) ∅ !! target
    = match metadataWrites coerceInt (allClaimsOf w)
              (@range R1 _ claimMappings) ∅ !! target with
      | Some v => Some v
      | None => None
      end).
  { intros R.
    destruct (metadataWrites coerceInt (allClaimsOf w)
                (@range R1 _ claimMappings) ∅ !! target) as [v|] eqn:H1.
    - apply metadataWrites_inv in H1 as [H1|(src & Hin & Hsrc)]; [done|].
      apply (@elem_of_range R1) in Hin. apply metadataWrites_agree.
      + right. exists src. split; [by apply (@elem_of_range R)|done].
      + intros s' v' Hin' Hs'. apply (@elem_of_range R) in Hin'.
        by apply (Hagree s' src target v' v).
    - destruct (metadataWrites coerceInt (allClaimsOf w)
                  (@range R _ claimMappings) ∅ !! target) as [v|] eqn:H2; [|done].
      apply metadataWrites_inv in H2 as [H2|(src & Hin & Hsrc)]; [done|].
      apply (@elem_of_range R) in Hin.
      assert (Hsome : is_Some (metadataWrites coerceInt (allClaimsOf w)
                                 (@range R1 _ claimMappings) ∅ !! target)).
      { apply metadataWrites_some. right. exists src, v.
        split; [by apply (@elem_of_range R1)|done]. }
      rewrite H1 in Hsome. by destruct Hsome. }
  rewrite (Hone R1), (Hone R2). done.
Qed.

Lemma extractMetadata_order_free_witness :
  let claimMappings : gmap string string :=
    {[ "COLOR" := "color"; "/nested/Size" := "size"; "shoe" := "size" ]} in
  let w := World {[ "COLOR" := VString "green";
                    "nested" := VMap {[ "Size" := VString "medium" ]} ]} [] in
  (∀ source target, claimMappings !! source = Some target →
     ¬ notAString decimalIndex (allClaimsOf w) source)
  ∧ (∀ source1 source2 target strValue1 strValue2,
       claimMappings !! source1 = Some target →
       claimMappings !! source2 = Some target →
       claimOf decimalIndex (allClaimsOf w) source1 = VString strValue1 →
       claimOf decimalIndex (allClaimsOf w) source2 = VString strValue2 →
       strValue1 = strValue2)
  ∧ (@extractMetadata decimalIndex ascendingRange claimMappings w).1
    = (@extractMetadata decimalIndex descendingRange claimMappings w).1.
Proof.
  intros claimMappings w.
  assert (Hkeys : ∀ source target, claimMappings !! source = Some target →
            source = "COLOR" ∨ source = "/nested/Size" ∨ source = "shoe").
  { intros source target Hl. unfold claimMappings in Hl.
    apply lookup_insert_Some in Hl as [[<- _]|[_ Hl]]; [by left|].
    apply lookup_insert_Some in Hl as [[<- _]|[_ Hl]]; [right; by left|].
    apply lookup_singleton_Some in Hl as [<- _]. right; by right. }
  assert (Hgood : ∀ source target, claimMappings !! source = Some target →
            ¬ notAString decimalIndex (allClaimsOf w) source).
  { intros source target Hl [Hne Hns].
    destruct (Hkeys source target Hl) as [-> | [-> | ->]].
    - by apply (Hns "green").
    - by apply (Hns "medium").
    - by apply Hne. }
  assert (Hagree : ∀ source1 source2 target strValue1 strValue2,
            claimMappings !! source1 = Some target →
            claimMappings !! source2 = Some target →
            claimOf decimalIndex (allClaimsOf w) source1 = VString strValue1 →
            claimOf decimalIndex (allClaimsOf w) source2 = VString strValue2 →
            strValue1 = strValue2).
  { intros s1 s2 target v1 v2 H1 H2 Hv1 Hv2.
    destruct (Hkeys s1 target H1) as [-> | [-> | ->]];
      destruct (Hkeys s2 target H2) as [-> | [-> | ->]];
      vm_compute in H1, H2, Hv1, Hv2; congruence. }
  split; [exact Hgood|]. split; [exact Hagree|].
  exact (extractMetadata_order_free decimalIndex ascendingRange descendingRange
           claimMappings w Hgood Hagree).
Defined.

(** ** More on the group and audience validators *)

Lemma same_members_nil {A : Type} (l1 l2 : list A) :
  (∀ x, x ∈ l1 ↔ x ∈ l2) → (l1 = [] ↔ l2 = []).
Proof.
  intros Hsame. split; intros ->.
  - destruct l2 as [|x l2]; [done|].
    assert (Hx : x ∈ []) by (apply Hsame, elem_of_cons; by left).
    by apply elem_of_nil in Hx.
  - destruct l1 as [|x l1]; [done|].
    assert (Hx : x ∈ []) by (apply Hsame, elem_of_cons; by left).
    by apply elem_of_nil in Hx.
Qed.

Lemma length_zero_nil {A : Type} (l : list A) :
  bool_decide (length l = 0) = bool_decide (l = []).
Proof. apply bool_decide_ext. by destruct l. Qed.

Lemma length_pos_not_nil {A : Type} (l : list A) :
  bool_decide (0 < length l) = negb (bool_decide (l = [])).
Proof. by destruct l. Qed.

(** X12: [validateGroups] looks at its two lists as sets of names: bound
    groups and aliases given in another order, or with repetitions, get the
    same verdict and, when it fails, the same missing names; only the
    order in which the error lists them may differ, with the order in
    which [range] visits the map of groups. *)
Theorem validateGroups_names_as_sets (R1 R2 : MapRange)
    (boundGroups1 boundGroups2 : list string)
    (groupAliases1 groupAliases2 : list Alias) :
  (∀ g, g ∈ boundGroups1 ↔ g ∈ boundGroups2) →
  (∀ g, g ∈ Name <$> groupAliases1 ↔ g ∈ Name <$> groupAliases2) →
  match @validateGroups R1 boundGroups1 groupAliases1,
        @validateGroups R2 boundGroups2 groupAliases2 with
  | None, None => True
  | Some (ErrMissingGroups missing1), Some (ErrMissingGroups missing2) =>
      missing1 ≡ₚ missing2
  | _, _ => False
  end.
Proof.
  intros Hb Ha. unfold validateGroups. rewrite !length_zero_nil.
  rewrite (bool_decide_ext _ _ (same_members_nil _ _ Hb)).
  case_bool_decide; [done|].
  assert (Hmap : markAliases (setGroups boundGroups1) groupAliases1
                 = markAliases (setGroups boundGroups2) groupAliases2).
  { apply map_eq. intros g. rewrite !markAliases_lookup.
    rewrite (bool_decide_ext _ _ (Ha g)).
    destruct (setGroups_lookup boundGroups1 g) as [Hin1 Hout1].
    destruct (setGroups_lookup boundGroups2 g) as [Hin2 Hout2].
    destruct (decide (g ∈ boundGroups1)) as [Hg|Hg].
    - by rewrite (Hin1 Hg), (Hin2 (proj1 (Hb g) Hg)).
    - rewrite (Hout1 Hg), Hout2; [done|]. intros Hg2. by apply Hg, Hb. }
  rewrite Hmap.
  set (groupFound := markAliases (setGroups boundGroups2) groupAliases2).
  assert (Hperm : collectMissing (@range R1 _ groupFound)
                  ≡ₚ collectMissing (@range R2 _ groupFound)).
  { apply NoDup_Permutation.
    - apply (@collectMissing_NoDup R1).
    - apply (@collectMissing_NoDup R2).
    - intros g. by rewrite (@collectMissing_range R1), (@collectMissing_range R2). }
  cbv zeta. rewrite <- (Permutation_length Hperm).
  by case_bool_decide.
Qed.

Lemma validateGroups_names_as_sets_witness :
  let boundGroups1 := ["dev"; "ops"; "admin"] in
  let boundGroups2 := ["ops"; "admin"; "dev"; "ops"] in
  let groupAliases1 := [ {| Name := "ops" |}; {| Name := "qa" |} ] in
  let groupAliases2 := [ {| Name := "qa" |}; {| Name := "ops" |}; {| Name := "qa" |} ] in
  (∀ g, g ∈ boundGroups1 ↔ g ∈ boundGroups2)
  ∧ (∀ g, g ∈ Name <$> groupAliases1 ↔ g ∈ Name <$> groupAliases2)
  ∧ @validateGroups ascendingRange boundGroups1 groupAliases1
    = Some (ErrMissingGroups ["admin"; "dev"])
  ∧ @validateGroups descendingRange boundGroups2 groupAliases2
    = Some (ErrMissingGroups ["dev"; "admin"])
  ∧ ["admin"; "dev"] ≡ₚ ["dev"; "admin"].
Proof.
  intros boundGroups1 boundGroups2 groupAliases1 groupAliases2.
  assert (Hb : ∀ g, g ∈ boundGroups1 ↔ g ∈ boundGroups2).
  { intros g. unfold boundGroups1, boundGroups2.
    rewrite !elem_of_cons, !elem_of_nil. tauto. }
  assert (Ha : ∀ g, g ∈ Name <$> groupAliases1 ↔ g ∈ Name <$> groupAliases2).
  { intros g. unfold groupAliases1, groupAliases2. simpl.
    rewrite !elem_of_cons, !elem_of_nil. tauto. }
  assert (H1 : @validateGroups ascendingRange boundGroups1 groupAliases1
               = Some (ErrMissingGroups ["admin"; "dev"]))
    by (vm_compute; reflexivity).
  assert (H2 : @validateGroups descendingRange boundGroups2 groupAliases2
               = Some (ErrMissingGroups ["dev"; "admin"]))
    by (vm_compute; reflexivity).
  split; [exact Hb|]. split; [exact Ha|]. split; [exact H1|]. split; [exact H2|].
  pose proof (validateGroups_names_as_sets ascendingRange descendingRange
                boundGroups1 boundGroups2 groupAliases1 groupAliases2 Hb Ha) as Hperm.
  rewrite H1, H2 in Hperm. exact Hperm.
Defined.

(** X13: the order in which [range] visits the map of groups changes
    neither the verdict of [validateGroups] nor the names its error
    carries, only the order in which the error lists them. *)
Theorem validateGroups_order_free (R1 R2 : MapRange)
    (boundGroups : list string) (groupAliases : list Alias) :
  match @validateGroups R1 boundGroups groupAliases,
        @validateGroups R2 boundGroups groupAliases with
  | None, None => True
  | Some (ErrMissingGroups missing1), Some (ErrMissingGroups missing2) =>
      missing1 ≡ₚ missing2
  | _, _ => False
  end.
Proof.
  unfold validateGroups. case_bool_decide; [done|].
  set (groupFound := markAliases (setGroups boundGroups) groupAliases).
  assert (Hperm : collectMissing (@range R1 _ groupFound)
                  ≡ₚ collectMissing (@range R2 _ groupFound)).
  { apply NoDup_Permutation.
    - apply (@collectMissing_NoDup R1).
    - apply (@collectMissing_NoDup R2).
    - intros g. by rewrite (@collectMissing_range R1), (@collectMissing_range R2). }
  cbv zeta. rewrite <- (Permutation_length Hperm).
  by case_bool_decide.
Qed.

(** X14: [validateAudience] looks at its two lists as sets: bound
    audiences and audiences of the token given in another order, or with
    repetitions, get the same answer. *)
Theorem validateAudience_audiences_as_sets
    (boundAudiences1 boundAudiences2 audClaim1 audClaim2 : list string)
    (strict : bool) :
  (∀ v, v ∈ boundAudiences1 ↔ v ∈ boundAudiences2) →
  (∀ v, v ∈ audClaim1 ↔ v ∈ audClaim2) →
  validateAudience boundAudiences1 audClaim1 strict
  = validateAudience boundAudiences2 audClaim2 strict.
Proof.
  intros Hb Ha. unfold validateAudience.
  assert (Hany : anyBoundAudience boundAudiences1 audClaim1
                 = anyBoundAudience boundAudiences2 audClaim2).
  { apply eq_true_iff_eq. rewrite !anyBoundAudience_true.
    split; intros (v & Hv1 & Hv2); exists v; split;
      (by apply Hb) || (by apply Ha). }
  rewrite Hany, !length_zero_nil, !length_pos_not_nil.
  rewrite (bool_decide_ext _ _ (same_members_nil _ _ Hb)).
  by rewrite (bool_decide_ext _ _ (same_members_nil _ _ Ha)).
Qed.

Lemma validateAudience_audiences_as_sets_witness :
  let boundAudiences1 := ["vault"; "api"] in
  let boundAudiences2 := ["api"; "vault"; "api"] in
  let audClaim1 := ["web"; "api"] in
  let audClaim2 := ["api"; "web"] in
  (∀ v, v ∈ boundAudiences1 ↔ v ∈ boundAudiences2)
  ∧ (∀ v, v ∈ audClaim1 ↔ v ∈ audClaim2)
  ∧ validateAudience boundAudiences1 audClaim1 true
    = validateAudience boundAudiences2 audClaim2 true.
Proof.
  intros boundAudiences1 boundAudiences2 audClaim1 audClaim2.
  assert (Hb : ∀ v, v ∈ boundAudiences1 ↔ v ∈ boundAudiences2).
  { intros v. unfold boundAudiences1, boundAudiences2.
    rewrite !elem_of_cons, !elem_of_nil. tauto. }
  assert (Ha : ∀ v, v ∈ audClaim1 ↔ v ∈ audClaim2).
  { intros v. unfold audClaim1, audClaim2.
    rewrite !elem_of_cons, !elem_of_nil. tauto. }
  split; [exact Hb|]. split; [exact Ha|].
  exact (validateAudience_audiences_as_sets boundAudiences1 boundAudiences2
           audClaim1 audClaim2 true Hb Ha).
Defined.

(** ** More on the directory lookup *)

Section DirectoryFacts.
Variable Group : Type.
Variable JWTConfigFromJSON adminNew : string → option string.
Variable directoryDo : GoogleGroups.request → GoogleGroups.page Group + string.

Abbreviation pagesOf := (GoogleGroups.pages Group directoryDo).
Abbreviation groupsPerUser :=
  (GoogleGroups.googleGroupsPerUser Group JWTConfigFromJSON adminNew directoryDo).

Lemma pages_never_end :
  (∀ req, ∃ resp, directoryDo req = inl resp
                  ∧ GoogleGroups.NextPageToken Group resp ≠ "") →
  ∀ (fuel : nat) (subject userKey pageToken : string)
    (groups : list Group) (sent : list GoogleGroups.request),
    pagesOf fuel subject userKey pageToken groups sent = None.
Proof.
  intros Hmore fuel. induction fuel as [|fuel IH];
    intros subject userKey pageToken groups sent; [done|].
  cbn [GoogleGroups.pages].
  destruct (Hmore (GoogleGroups.Request subject userKey pageToken))
    as (resp & -> & Hnext).
  rewrite bool_decide_eq_false_2 by done. apply IH.
Qed.

(** What a run of the paging loop sends and returns. *)
Lemma pages_run (fuel : nat) (subject userKey pageToken : string)
    (groups : list Group) (sent sent' : list GoogleGroups.request)
    (groups' : list Group) (err : option GoogleGroups.error) :
  pagesOf fuel subject userKey pageToken groups sent = Some ((groups', err), sent') →
  (∃ new, sent' = sent ++ new
          ∧ (length new ≤ fuel)%nat
          ∧ Forall (λ req, GoogleGroups.reqSubject req = subject
                           ∧ GoogleGroups.reqUserKey req = userKey) new)
  ∧ (∀ e, err = Some e → groups' = [] ∧ ∃ detail, e = GoogleGroups.ErrRequest detail).
Proof.
  revert pageToken groups sent.
  induction fuel as [|fuel IH]; intros pageToken groups sent; [done|].
  cbn [GoogleGroups.pages].
  destruct (directoryDo _) as [resp|detail].
  - case_bool_decide.
    + intros [= <- <- <-]. split; [|done].
      eexists [_]. split; [done|]. split; [simpl; lia|].
      by apply Forall_singleton.
    + intros Hr. apply IH in Hr as [(new & -> & Hlen & Hall) Herr]. split; [|done].
      eexists (_ :: new). split; [by rewrite <- app_assoc|].
      split; [simpl; lia|]. by apply Forall_cons.
  - intros [= <- <- <-]. split.
    + eexists [_]. split; [done|]. split; [simpl; lia|]. by apply Forall_singleton.
    + intros e [= <-]. by eauto.
Qed.

Lemma pages_answers (fuel : nat) (subject userKey pageToken : string)
    (groups : list Group) (sent : list GoogleGroups.request)
    (ps : list (GoogleGroups.page Group)) :
  answers directoryDo subject userKey pageToken ps →
  (length ps ≤ fuel)%nat →
  pagesOf fuel subject userKey pageToken groups sent
  = Some ((groups ++ concat (GoogleGroups.Groups Group <$> ps), None),
          sent ++ requestsFor subject userKey pageToken ps).
Proof.
  revert fuel pageToken groups sent.
  induction ps as [|p rest IH]; intros fuel pageToken groups sent; [done|].
  intros [Hdo Hnext] Hlen. destruct fuel as [|fuel]; [simpl in Hlen; lia|].
  cbn [GoogleGroups.pages]. rewrite Hdo.
  destruct rest as [|p' rest].
  - rewrite bool_decide_eq_true_2 by done. simpl. by rewrite app_nil_r.
  - destruct Hnext as [Hne Hrest]. rewrite bool_decide_eq_false_2 by done.
    rewrite (IH fuel); [|done|simpl in *; lia].
    cbn [requestsFor fmap list_fmap concat]. by rewrite <- !app_assoc.
Qed.

End DirectoryFacts.

Section DirectoryTheorems.
Variable Group : Type.
Variable JWTConfigFromJSON adminNew : string → option string.
Variable directoryDo : GoogleGroups.request → GoogleGroups.page Group + string.

Abbreviation lookupGroups :=
  (GoogleGroups.googleGroupsPerUser Group JWTConfigFromJSON adminNew directoryDo).

Lemma length_zero_empty (s : string) :
  bool_decide (String.length s = 0) = bool_decide (s = "").
Proof. apply bool_decide_ext. by destruct s. Qed.

(** The four ways through [googleGroupsPerUser] on a config that is there. *)
Lemma lookupGroups_cases (fuel : nat) (cfg : GoogleGroups.jwtConfig)
    (userKey : string) (sent : list GoogleGroups.request) :
  let user := GoogleGroups.GoogleDirectoryImpersonateUser cfg in
  lookupGroups fuel (Some cfg) userKey sent = Some (Returns ([], None), sent)
  ∨ (∃ detail, lookupGroups fuel (Some cfg) userKey sent
               = Some (Returns ([], Some (GoogleGroups.ErrCredentials detail)), sent))
  ∨ (∃ detail, lookupGroups fuel (Some cfg) userKey sent
               = Some (Returns ([], Some (GoogleGroups.ErrCreateService detail)), sent))
  ∨ (user ≠ ""
     ∧ lookupGroups fuel (Some cfg) userKey sent
       = match GoogleGroups.pages Group directoryDo fuel user userKey "" [] sent with
         | Some (r, sent') => Some (Returns r, sent')
         | None => None
         end).
Proof.
  intros user. unfold GoogleGroups.googleGroupsPerUser.
  rewrite !length_zero_empty. fold user.
  case_bool_decide as Huser; [by left|].
  case_bool_decide as Hkey; [by left|]. cbn [orb].
  unfold GoogleGroups.googleDirectoryService.
  destruct (JWTConfigFromJSON _) as [detail|]; [right; left; by eauto|].
  destruct (adminNew _) as [detail|]; [right; right; left; by eauto|].
  right; right; right. by split.
Qed.

(** X15: on a configured directory that answers page after page, each
    page naming the next and the last naming none, [googleGroupsPerUser]
    returns the groups of all the pages, in the order of the pages, and no
    error; it sends one request per page, the first without a page token,
    each other with the token the page before named. *)
Theorem googleGroupsPerUser_collects_every_page (fuel : nat)
    (cfg : GoogleGroups.jwtConfig) (userKey : string)
    (sent : list GoogleGroups.request) (ps : list (GoogleGroups.page Group)) :
  let user := GoogleGroups.GoogleDirectoryImpersonateUser cfg in
  let key := GoogleGroups.GoogleDirectoryServiceAccountKey cfg in
  user ≠ "" → key ≠ "" →
  JWTConfigFromJSON key = None →
  adminNew user = None →
  answers directoryDo user userKey "" ps →
  (length ps ≤ fuel)%nat →
  lookupGroups fuel (Some cfg) userKey sent
  = Some (Returns (concat (GoogleGroups.Groups Group <$> ps), None),
          sent ++ requestsFor user userKey "" ps).
Proof.
  intros user key Huser Hkey Hjwt Hnew Hans Hfuel.
  unfold GoogleGroups.googleGroupsPerUser. rewrite !length_zero_empty.
  fold user key. rewrite !bool_decide_eq_false_2 by done. cbn [orb].
  unfold GoogleGroups.googleDirectoryService. fold user key. rewrite Hjwt, Hnew.
  by rewrite (pages_answers Group directoryDo fuel user userKey "" [] sent ps).
Qed.

(** X16: the paging loop of [googleGroupsPerUser] has no bound of its own.
    On a configured directory that names a next page in every answer, no
    number of turns of the loop brings the call to return: it goes on
    asking for pages. *)
Theorem googleGroupsPerUser_pages_without_bound (fuel : nat)
    (cfg : GoogleGroups.jwtConfig) (userKey : string)
    (sent : list GoogleGroups.request) :
  let user := GoogleGroups.GoogleDirectoryImpersonateUser cfg in
  let key := GoogleGroups.GoogleDirectoryServiceAccountKey cfg in
  user ≠ "" → key ≠ "" →
  JWTConfigFromJSON key = None →
  adminNew user = None →
  (∀ req, ∃ resp, directoryDo req = inl resp
                  ∧ GoogleGroups.NextPageToken Group resp ≠ "") →
  lookupGroups fuel (Some cfg) userKey sent = None.
Proof.
  intros user key Huser Hkey Hjwt Hnew Hmore.
  unfold GoogleGroups.googleGroupsPerUser. rewrite !length_zero_empty.
  fold user key. rewrite !bool_decide_eq_false_2 by done. cbn [orb].
  unfold GoogleGroups.googleDirectoryService. fold user key. rewrite Hjwt, Hnew.
  by rewrite (pages_never_end Group directoryDo Hmore).
Qed.

(** X17: whenever [googleGroupsPerUser] returns an error, the list of
    groups it returns with it is empty: the groups of the pages fetched
    before a failing request are dropped. The error is never the "missing
    config" of [googleDirectoryService]: a nil config is dereferenced
    before that check is reached. *)
Theorem googleGroupsPerUser_error_without_groups (fuel : nat)
    (config : option GoogleGroups.jwtConfig) (userKey : string)
    (sent sent' : list GoogleGroups.request) (groups : list Group)
    (err : GoogleGroups.error) :
  lookupGroups fuel config userKey sent = Some (Returns (groups, Some err), sent') →
  groups = [] ∧ err ≠ GoogleGroups.ErrMissingConfig.
Proof.
  destruct config as [cfg|]; [|done].
  destruct (lookupGroups_cases fuel cfg userKey sent)
    as [-> | [[d ->] | [[d ->] | [_ ->]]]]; try (intros [= <- <-]; done).
  destruct (GoogleGroups.pages Group directoryDo fuel _ _ _ _ _)
    as [[[gs e] s']|] eqn:Hp; [|done].
  intros [= -> -> ->].
  apply pages_run in Hp as [_ Herr].
  destruct (Herr err eq_refl) as [-> [d ->]]. done.
Qed.


End DirectoryTheorems.

Lemma googleGroupsPerUser_collects_every_page_witness :
  let user := GoogleGroups.GoogleDirectoryImpersonateUser sampleConfig in
  let key := GoogleGroups.GoogleDirectoryServiceAccountKey sampleConfig in
  let ps := [ GoogleGroups.Page string ["staff"; "dev"] "p2";
              GoogleGroups.Page string ["ops"] "" ] in
  user ≠ "" ∧ key ≠ ""
  ∧ answers twoPages user "bob@example.com" "" ps
  ∧ (length ps ≤ 2)%nat
  ∧ GoogleGroups.googleGroupsPerUser string (λ _, None) (λ _, None) twoPages
      2 (Some sampleConfig) "bob@example.com" []
    = Some (Returns (["staff"; "dev"; "ops"], None),
            [ GoogleGroups.Request "admin@example.com" "bob@example.com" "";
              GoogleGroups.Request "admin@example.com" "bob@example.com" "p2" ]).
Proof.
  intros user key ps.
  assert (Huser : user ≠ "") by discriminate.
  assert (Hkey : key ≠ "") by discriminate.
  assert (Hans : answers twoPages user "bob@example.com" "" ps)
    by (repeat split; discriminate).
  assert (Hlen : (length ps ≤ 2)%nat) by (simpl; lia).
  split; [exact Huser|]. split; [exact Hkey|]. split; [exact Hans|].
  split; [exact Hlen|].
  exact (googleGroupsPerUser_collects_every_page string (λ _, None) (λ _, None)
           twoPages 2 sampleConfig "bob@example.com" [] ps
           Huser Hkey eq_refl eq_refl Hans Hlen).
Defined.

Lemma googleGroupsPerUser_pages_without_bound_witness :
  let user := GoogleGroups.GoogleDirectoryImpersonateUser sampleConfig in
  let key := GoogleGroups.GoogleDirectoryServiceAccountKey sampleConfig in
  user ≠ "" ∧ key ≠ ""
  ∧ (∀ req, ∃ resp, endlessPages req = inl resp
                    ∧ GoogleGroups.NextPageToken string resp ≠ "")
  ∧ GoogleGroups.googleGroupsPerUser string (λ _, None) (λ _, None) endlessPages
      1000 (Some sampleConfig) "bob@example.com" [] = None.
Proof.
  intros user key.
  assert (Huser : user ≠ "") by discriminate.
  assert (Hkey : key ≠ "") by discriminate.
  assert (Hmore : ∀ req, ∃ resp, endlessPages req = inl resp
                                 ∧ GoogleGroups.NextPageToken string resp ≠ "").
  { intros req. eexists. split; [reflexivity|]. discriminate. }
  split; [exact Huser|]. split; [exact Hkey|]. split; [exact Hmore|].
  exact (googleGroupsPerUser_pages_without_bound string (λ _, None) (λ _, None)
           endlessPages 1000 sampleConfig "bob@example.com" []
           Huser Hkey eq_refl eq_refl Hmore).
Defined.

Lemma googleGroupsPerUser_error_without_groups_witness :
  let sent' := [ GoogleGroups.Request "admin@example.com" "bob@example.com" "";
                 GoogleGroups.Request "admin@example.com" "bob@example.com" "p2" ] in
  GoogleGroups.googleGroupsPerUser string (λ _, None) (λ _, None) secondPageFails
    5 (Some sampleConfig) "bob@example.com" []
  = Some (Returns ([], Some (GoogleGroups.ErrRequest "quota exceeded")), sent')
  ∧ ([] : list string) = []
  ∧ GoogleGroups.ErrRequest "quota exceeded" ≠ GoogleGroups.ErrMissingConfig.
Proof.
  intros sent'.
  assert (Hr : GoogleGroups.googleGroupsPerUser string (λ _, None) (λ _, None)
                 secondPageFails 5 (Some sampleConfig) "bob@example.com" []
               = Some (Returns ([], Some (GoogleGroups.ErrRequest "quota exceeded")),
                       sent'))
    by (vm_compute; reflexivity).
  split; [exact Hr|].
  exact (googleGroupsPerUser_error_without_groups string (λ _, None) (λ _, None)
           secondPageFails 5 (Some sampleConfig) "bob@example.com" [] sent' []
           (GoogleGroups.ErrRequest "quota exceeded") Hr).
Defined.

